(** * s3_glacier_restore: a shallow embedding of [s3_restore.py]

    The development follows the layout of the script: the helpers
    ([read_file], [chunks], [diff]), the two worker loops
    ([request_retrieval], [check_files_availability]), the progress
    printer ([print_percent_queue]) and the two orchestrators
    ([main_request_objects_restore], [main_check_restore_status]).

    Conventions of the embedding.
    - Keys, file names and file contents are [string]s.
    - Python [int]s that can be negative ([thread_count], chunk sizes)
      are [Z]; lengths and counters are [nat].
    - Exceptions that end a function are values of [result].
    - The remote object store, the file system, the console and the
      process-wide [PERCENT_QUEUE] are explicit state.
    - Python floats used for progress fractions are rationals ([Q]):
      [counter / len(files)] is modelled by the exact quotient.
    - Numeric command-line arguments ([thread_count], [retain_days]) are
      taken at the value [int(...)] gives them.
    - Console output is a list of [message]s, one constructor per
      f-string of the script, so that no number has to be formatted.
    - Files are opened in text mode on a POSIX system: writing leaves
      the text as it is, reading translates line endings. *)

From Stdlib Require Import ZArith QArith Lia Lqa Ascii String.
From stdpp Require Import base gmap strings list sets.

Open Scope Z_scope.
Open Scope nat_scope.

(** ** Exceptions *)

Inductive exn : Type :=
  | ValueError
  | ZeroDivisionError
  | FileNotFoundError
  | EOFError
  | SystemExit (code : Z).

Inductive result (A : Type) : Type :=
  | Ok (a : A)
  | Raise (e : exn).

Arguments Ok {A} a.
Arguments Raise {A} e.

#[global] Instance result_ret : MRet result := λ A a, Ok a.

#[global] Instance result_bind : MBind result := λ A B k r,
  match r with
  | Ok a => k a
  | Raise e => Raise e
  end.

(** ** [chunks] and [diff] *)

Module Helpers.

(** [range(start, stop, step)] for a positive step: the loop of the
    interpreter, run for at most [fuel] iterations. *)
Fixpoint range_from (fuel start stop step : nat) : list nat :=
  match fuel with
  | O => []
  | S fuel' =>
      if start <? stop
      then start :: range_from fuel' (start + step) stop step
      else []
  end.

(** [range(0, stop, step)]: a zero step raises [ValueError], a negative
    one gives the empty range. *)
Definition range0 (stop : nat) (step : Z) : result (list nat) :=
  if (step =? 0)%Z then Raise ValueError
  else if (step <? 0)%Z then Ok []
  else Ok (range_from stop 0 stop (Z.to_nat step)).

(** [lst[i:j]] for [0 <= i <= j]. *)
Definition slice {A : Type} (lst : list A) (i j : nat) : list A :=
  take (j - i) (drop i lst).

(** [chunks(lst, n)]: the list of the slices the generator yields. *)
Definition chunks {A : Type} (lst : list A) (n : Z) : result (list (list A)) :=
  starts ← range0 (length lst) n;
  Ok (map (λ i, slice lst i (i + Z.to_nat n)) starts).

(** [diff(first, second)]: [second] is turned into a set, and [first]
    is filtered by non-membership in that set. *)
Definition diff (first second : list string) : list string :=
  let second : gset string := list_to_set second in
  filter (λ item, item ∉ second) first.

(** [max(int(len / thread_count), 1)].  [len / thread_count] is a float
    division, which raises on a zero divisor, and [int] truncates its
    result towards zero. *)
Definition split_by (len : nat) (thread_count : Z) : result Z :=
  if (thread_count =? 0)%Z then Raise ZeroDivisionError
  else Ok (Z.max (Z.quot (Z.of_nat len) thread_count) 1).

End Helpers.

Import Helpers.

(** ** Text files, [read_file] and the loggers *)

Module TextIO.

Definition LF : ascii := "010"%char.
Definition CR : ascii := "013"%char.

Definition is_char (c d : ascii) : bool := bool_decide (c = d).

(** Universal-newlines translation done by a file opened with
    [open(fname)]: ["\r\n"] and a lone ["\r"] both become ["\n"]. *)
Fixpoint translate_newlines (s : string) : string :=
  match s with
  | EmptyString => EmptyString
  | String c s' =>
      if is_char c CR then
        match s' with
        | String c' s'' =>
            if is_char c' LF
            then String LF (translate_newlines s'')
            else String LF (translate_newlines s')
        | EmptyString => String LF EmptyString
        end
      else String c (translate_newlines s')
  end.

(** Iterating over a text: each line keeps its terminating ["\n"]; a
    last line without terminator is yielded as it is.  [cur] is the
    line read so far. *)
Fixpoint lines_from (cur s : string) : list string :=
  match s with
  | EmptyString => if bool_decide (cur = EmptyString) then [] else [cur]
  | String c s' =>
      if is_char c LF
      then (cur +:+ String LF EmptyString) :: lines_from EmptyString s'
      else lines_from (cur +:+ String c EmptyString) s'
  end.

Definition file_lines (content : string) : list string :=
  lines_from EmptyString (translate_newlines content).

(** [l.replace('\n', '')] *)
Fixpoint replace_LF (l : string) : string :=
  match l with
  | EmptyString => EmptyString
  | String c l' =>
      if is_char c LF then replace_LF l' else String c (replace_LF l')
  end.

(** The file system: file name to content. *)
Abbreviation filesystem := (gmap string string).

Definition path_exists (fs : filesystem) (fname : string) : bool :=
  bool_decide (is_Some (fs !! fname)).

Definition read_file (fs : filesystem) (fname : string) : result (list string) :=
  match fs !! fname with
  | None => Raise FileNotFoundError
  | Some content => Ok (map replace_LF (file_lines content))
  end.

(** [setup_logger(logfile)]: the [FileHandler] opens [logfile] for
    appending, which creates it when it does not exist.  The logger is
    identified with the name of its file: this is the logger with the
    one handler it has after one call of [setup_logger] for the file,
    which is how every orchestrator uses it.  Handlers added by further
    calls for the same file are not part of the embedding. *)
Definition setup_logger (logfile : string) (fs : filesystem) : filesystem :=
  match fs !! logfile with
  | Some _ => fs
  | None => <[logfile := EmptyString]> fs
  end.

(** [logger.info(msg)]: the handler appends [msg] and a line end. *)
Definition logger_info (logger msg : string) (fs : filesystem) : filesystem :=
  <[logger := default EmptyString (fs !! logger) +:+ msg +:+ String LF EmptyString]> fs.

(** The writing loop of [main_generate_list]: the file is truncated by
    [open(output_filename, 'w')] and receives one [f'{obj}\n'] per key. *)
Fixpoint written_text (glacier_objects : list string) : string :=
  match glacier_objects with
  | [] => EmptyString
  | obj :: rest => obj +:+ String LF EmptyString +:+ written_text rest
  end.

Definition write_list (output_filename : string) (glacier_objects : list string)
    (fs : filesystem) : filesystem :=
  <[output_filename := written_text glacier_objects]> fs.

(** [needle in hay] for strings *)
Fixpoint contains (needle hay : string) : bool :=
  if String.prefix needle hay then true
  else match hay with
       | EmptyString => false
       | String _ hay' => contains needle hay'
       end.

End TextIO.

Import TextIO.

(** ** The workers *)

Module Worker.

(** What the script prints.  Each constructor stands for one f-string. *)
Inductive message : Type :=
  | AlreadyAvailable (f : string)        (* '{f} already available to download' *)
  | NotFoundSkipping (f : string)        (* '{f} not found, skipping' *)
  | AlreadyInProgress (f : string)       (* '{f} restore already in progress, ignoring' *)
  | KeyFailed (f e : string)             (* '{f}: {e}' *)
  | ExceptionOccured (e : string)        (* 'Exception occured: {e}' *)
  | ProgressLine (total_percent : Q) (out_str : list (nat * Q))
                                         (* 'Total: {total_percent:.2f}% [ T{chunk_id}: {percent}% ...]' *)
  | EmptyLine
  | ProgressLogFound (skipped : Z)
  | AvailabilityLogFound (skipped : Z)
  | NothingToDo                          (* 'All objects already requested, nothing to do' *)
  | WillProcess (n : nat)                (* 'Will have to process {n} files' *)
  | ThreadsFiles (thread_count split_by : Z)
                                         (* '{thread_count} threads, {split_by} files per thread' *)
  | ListNotFound (object_list_path : string)
  | RunGenerateFirst
  | ConfirmEstimate (est_hours : Q)      (* the prompt of input(): 'This will take approximately ...' *)
  | ConfirmOverwrite (output_filename : string)
  | ListingObjects                       (* 'Listing objects to file' *)
  | Found (last_count : nat)             (* 'Found: {last_count}' *)
  | Printed (e : string)                 (* print(e) *)
  | TotalCount (n : nat) (output_filename : string).

(** A [botocore] [ClientError]: its error code and its text. *)
Record ClientError : Type := { Code : string; text : string }.

(** The result of [restore_object]: a response, of which the script
    reads the HTTP status code, or a [ClientError].  These are the two
    results of the call the script provides for; an exception of another
    class would leave the worker and is not part of the embedding. *)
Inductive restore_outcome : Type :=
  | RestoreResponse (HTTPStatusCode : Z)
  | RestoreFails (e : ClientError).

(** The result of [head_object]: a response, of which the script reads
    the HTTP headers, or a [ClientError]. *)
Inductive head_outcome : Type :=
  | HeadResponse (HTTPHeaders : gmap string string)
  | HeadFails (e : ClientError).

(** The calls made to the object store, in order. *)
Inductive api_call : Type :=
  | NewSession (thread_id : nat)
  | RestoreObject (Bucket Key : string) (Days : Z) (Tier : string)
  | HeadObject (Bucket Key : string).

(** What a worker reads and changes: the files behind the loggers, the
    console, the process-wide queue, the object store, and the trace of
    the calls made to it. *)
Record world (Remote : Type) : Type := World {
  filesys : filesystem;
  stdout : list message;
  PERCENT_QUEUE : list (nat * Q);
  remote : Remote;
  api_log : list api_call
}.

Arguments World {Remote}.
Arguments filesys {Remote}.
Arguments stdout {Remote}.
Arguments PERCENT_QUEUE {Remote}.
Arguments remote {Remote}.
Arguments api_log {Remote}.

Section primitives.
Context {Remote : Type}.
Implicit Type w : world Remote.

Definition print (m : message) w : world Remote :=
  World (filesys w) (stdout w ++ [m]) (PERCENT_QUEUE w) (remote w) (api_log w).

Definition info (logger msg : string) w : world Remote :=
  World (logger_info logger msg (filesys w)) (stdout w) (PERCENT_QUEUE w)
        (remote w) (api_log w).

Definition queue_put (data : nat * Q) w : world Remote :=
  World (filesys w) (stdout w) (PERCENT_QUEUE w ++ [data]) (remote w) (api_log w).

Definition called (c : api_call) (r : Remote) w : world Remote :=
  World (filesys w) (stdout w) (PERCENT_QUEUE w) r (api_log w ++ [c]).
End primitives.

(** [a / b] on two [int]s *)
Definition truediv (a b : nat) : result Q :=
  if b =? 0 then Raise ZeroDivisionError
  else Ok (inject_Z (Z.of_nat a) / inject_Z (Z.of_nat b))%Q.

(** A [for] loop whose body may raise. *)
Fixpoint for_each {S A : Type} (body : S → A → result S) (s : S) (l : list A)
    : result S :=
  match l with
  | [] => Ok s
  | a :: l' => s' ← body s a; for_each body s' l'
  end.

Definition dquote : ascii := "034"%char.

(** ['ongoing-request="false"'] *)
Definition ongoing_request_false : string :=
  "ongoing-request=" +:+ String dquote ("false" +:+ String dquote EmptyString).

Section tasks.
Context {Remote Client : Type}.

(** The object store as the workers use it: [refresh_credentials]
    gives a new client, [restore_object] and [head_object] answer a
    call made with a client. *)
Variable new_client : nat → Remote → Client * Remote.
Variable restore_object :
  Client → string → string → Z → string → Remote → restore_outcome * Remote.
Variable head_object :
  Client → string → string → Remote → head_outcome * Remote.

Implicit Type w : world Remote.

Definition refresh_credentials (thread_id : nat) w : Client * world Remote :=
  let '(s3, r) := new_client thread_id (remote w) in
  (s3, called (NewSession thread_id) r w).

(** The local variables of a worker loop, with the world. *)
Record locals : Type := Locals {
  s3_client : Client;
  counter : nat;
  now : world Remote
}.

(** The three lines that end both loop bodies. *)
Definition report (files : list string) (chunk_index : nat) (st : locals)
    : result locals :=
  let counter := counter st + 1 in
  actual_percent ← truediv counter (length files);
  Ok (Locals (s3_client st) counter
             (queue_put (chunk_index, actual_percent) (now st))).

(** The body of the loop of [request_retrieval] for the key [f]. *)
Definition request_retrieval_body (progress_logger availability_logger : string)
    (files : list string) (bucket_name : string) (retain_days : Z)
    (tier : string) (chunk_index : nat) (st : locals) (f : string)
    : result locals :=
  let '(response, r) :=
    restore_object (s3_client st) bucket_name f retain_days tier
                   (remote (now st)) in
  let w := called (RestoreObject bucket_name f retain_days tier) r (now st) in
  let st :=
    match response with
    | RestoreResponse status =>
        if (status =? 200)%Z then
          Locals (s3_client st) (counter st)
                 (info availability_logger f (print (AlreadyAvailable f) w))
        else if (status =? 202)%Z then
          Locals (s3_client st) (counter st) (info progress_logger f w)
        else Locals (s3_client st) (counter st) w
    | RestoreFails e =>
        let code := Code e in
        if bool_decide (code = "NoSuchKey") then
          Locals (s3_client st) (counter st) (print (NotFoundSkipping f) w)
        else if bool_decide (code = "RestoreAlreadyInProgress") then
          Locals (s3_client st) (counter st)
                 (info progress_logger f (print (AlreadyInProgress f) w))
        else if bool_decide (code = "ExpiredToken") then
          let '(s3, w) := refresh_credentials chunk_index w in
          Locals s3 (counter st) w
        else Locals (s3_client st) (counter st) (print (KeyFailed f (text e)) w)
    end in
  report files chunk_index st.

Definition request_retrieval (progress_logger availability_logger : string)
    (files : list string) (bucket_name : string) (retain_days : Z)
    (tier : string) (chunk_index : nat) w : result (world Remote) :=
  let '(s3_client, w) := refresh_credentials chunk_index w in
  st ← for_each
         (request_retrieval_body progress_logger availability_logger files
                                 bucket_name retain_days tier chunk_index)
         (Locals s3_client 0 w) files;
  Ok (now st).

(** The body of the loop of [check_files_availability] for the key [f]. *)
Definition check_files_availability_body (availability_logger : string)
    (files : list string) (bucket_name : string) (chunk_index : nat)
    (st : locals) (f : string) : result locals :=
  let '(response, r) := head_object (s3_client st) bucket_name f (remote (now st)) in
  let w := called (HeadObject bucket_name f) r (now st) in
  let st :=
    match response with
    | HeadResponse headers =>
        match headers !! "x-amz-restore" with
        | Some x_amz_restore =>
            if contains ongoing_request_false x_amz_restore
            then Locals (s3_client st) (counter st) (info availability_logger f w)
            else Locals (s3_client st) (counter st) w
        | None => Locals (s3_client st) (counter st) w
        end
    | HeadFails e =>
        let code := Code e in
        if bool_decide (code = "NoSuchKey") then
          Locals (s3_client st) (counter st) (print (NotFoundSkipping f) w)
        else if bool_decide (code = "ExpiredToken") then
          let '(s3, w) := refresh_credentials chunk_index w in
          Locals s3 (counter st) w
        else Locals (s3_client st) (counter st) (print (ExceptionOccured (text e)) w)
    end in
  report files chunk_index st.

Definition check_files_availability (availability_logger : string)
    (files : list string) (bucket_name : string) (chunk_index : nat) w
    : result (world Remote) :=
  let '(s3_client, w) := refresh_credentials chunk_index w in
  st ← for_each
         (check_files_availability_body availability_logger files bucket_name
                                        chunk_index)
         (Locals s3_client 0 w) files;
  Ok (now st).

End tasks.

End Worker.

Import Worker.

(** ** The progress printer *)

Module Progress.

(** [percent_dict[k] = v] on a dictionary kept in insertion order: a
    known key keeps its place and takes the new value, a new key goes
    to the end. *)
Fixpoint dict_set (percent_dict : list (nat * Q)) (k : nat) (v : Q)
    : list (nat * Q) :=
  match percent_dict with
  | [] => [(k, v)]
  | (k', v') :: rest =>
      if k' =? k then (k, v) :: rest else (k', v') :: dict_set rest k v
  end.

(** The [while] loop: every queued sample is taken out, oldest first. *)
Definition drain (percent_dict queue : list (nat * Q)) : list (nat * Q) :=
  foldl (λ d data, dict_set d data.1 data.2) percent_dict queue.

(** The [for] loop over [percent_dict.items()], from
    [out_str = ''] and [total_percent = 0]. *)
Definition render (percent_dict : list (nat * Q)) : list (nat * Q) * Q :=
  foldl (λ '(out_str, total_percent) '(chunk_id, percent),
           let percent := (percent * 100)%Q in
           (out_str ++ [(chunk_id, percent)], (total_percent + percent)%Q))
        ([], 0%Q) percent_dict.

(** [print_percent_queue(percent_dict)]: returns the dictionary as the
    call leaves it. *)
Definition print_percent_queue {Remote : Type} (percent_dict : list (nat * Q))
    (w : world Remote) : list (nat * Q) * world Remote :=
  let percent_dict := drain percent_dict (PERCENT_QUEUE w) in
  let w := World (filesys w) (stdout w) [] (remote w) (api_log w) in
  let '(out_str, total_percent) := render percent_dict in
  if 0 <? length percent_dict then
    let total_percent :=
      (total_percent / inject_Z (Z.of_nat (length percent_dict)))%Q in
    (percent_dict, print (ProgressLine total_percent out_str) w)
  else (percent_dict, w).

End Progress.

Import Progress.

(** ** The orchestrators *)

Module Orchestrator.

(** The process as the orchestrators see it: the files, the console,
    and the answers the user will type. *)
Record process : Type := Process {
  disk : filesystem;
  console : list message;
  stdin : list string
}.

(** A small state-and-exception monad over [process]. *)
Definition io (A : Type) : Type := process → process * result A.

#[global] Instance io_ret : MRet io := λ A a p, (p, Ok a).

#[global] Instance io_bind : MBind io := λ A B k m p,
  match m p with
  | (p', Ok a) => k a p'
  | (p', Raise e) => (p', Raise e)
  end.

Definition raise {A : Type} (e : exn) : io A := λ p, (p, Raise e).

Definition io_print (m : message) : io unit :=
  λ p, (Process (disk p) (console p ++ [m]) (stdin p), Ok ()).

(** [input(prompt)]: the prompt is printed and a line is read. *)
Definition input (prompt : message) : io string :=
  λ p, match stdin p with
       | [] => (Process (disk p) (console p ++ [prompt]) [], Raise EOFError)
       | answer :: rest =>
           (Process (disk p) (console p ++ [prompt]) rest, Ok answer)
       end.

Definition io_setup_logger (logfile : string) : io string :=
  λ p, (Process (setup_logger logfile (disk p)) (console p) (stdin p), Ok logfile).

Definition io_path_exists (fname : string) : io bool :=
  λ p, (p, Ok (path_exists (disk p) fname)).

Definition io_read_file (fname : string) : io (list string) :=
  λ p, (p, read_file (disk p) fname).

Definition lift {A : Type} (r : result A) : io A := λ p, (p, r).

(** A thread that has been started, with the arguments of its target. *)
Inductive thread : Type :=
  | request_retrieval_thread
      (progress_logger availability_logger : string) (files : list string)
      (bucket_name : string) (retain_days : Z) (tier : string) (chunk_index : nat)
  | check_files_availability_thread
      (availability_logger : string) (files : list string)
      (bucket_name : string) (chunk_index : nat).

(** How an orchestrator goes on after its sequential part: it has
    returned, or it has started its threads and polls them. *)
Inductive ending : Type :=
  | Returned
  | Started (threads : list thread).

(** The loop [for chunk in chunks(...)] with its [chunk_index]. *)
Definition start_threads (target : list string → nat → thread)
    (cs : list (list string)) : list thread :=
  imap (λ chunk_index chunk, target chunk chunk_index) cs.

(** A log that is read when its file exists. *)
Definition read_log (logfile : string) : io (list string) :=
  found ← io_path_exists logfile;
  if found : bool then io_read_file logfile else mret [].

Definition len_diff (prev_len : nat) (l : list string) : Z :=
  (Z.of_nat prev_len - Z.of_nat (length l))%Z.

(** [main_request_objects_restore], up to the start of the threads. *)
Definition main_request_objects_restore (bucket object_list_path : string)
    (retain_for : Z) (retrieval_tier : string) (thread_count : Z) : io ending :=
  let progress_logfile := bucket +:+ ".progress" in
  let availability_logfile := bucket +:+ ".available" in
  progress_logger ← io_setup_logger progress_logfile;
  availability_logger ← io_setup_logger availability_logfile;
  progress_log ← read_log progress_logfile;
  availability_log ← read_log availability_logfile;
  io_print EmptyLine;;
  lines ← io_read_file object_list_path;
  lines ← (if 0 <? length progress_log then
             let prev_len := length lines in
             let lines := diff lines progress_log in
             io_print (ProgressLogFound (len_diff prev_len lines));;
             mret lines
           else mret lines);
  lines ← (if 0 <? length availability_log then
             let prev_len := length lines in
             let lines := diff lines availability_log in
             io_print (AvailabilityLogFound (len_diff prev_len lines));;
             mret lines
           else mret lines);
  (if length lines =? 0 then
     io_print NothingToDo;; raise (SystemExit 1)
   else mret ());;
  io_print (WillProcess (length lines));;
  let thread_count :=
    if (Z.of_nat (length lines) <? thread_count)%Z
    then Z.of_nat (length lines) else thread_count in
  split_by ← lift (split_by (length lines) thread_count);
  let est_hours :=
    (inject_Z (Z.of_nat (length lines)) / inject_Z thread_count / 5 / 60 / 60)%Q in
  io_print (ThreadsFiles thread_count split_by);;
  answer ← input (ConfirmEstimate est_hours);
  (if bool_decide (answer ≠ "y") then raise (SystemExit 1) else mret ());;
  cs ← lift (chunks lines split_by);
  mret (Started (start_threads
                   (λ chunk chunk_index,
                      request_retrieval_thread progress_logger availability_logger
                        chunk bucket retain_for retrieval_tier chunk_index)
                   cs)).

(** [main_check_restore_status], up to the start of the threads. *)
Definition main_check_restore_status (bucket object_list_path : string)
    (thread_count : Z) : io ending :=
  let availability_logfile := "bucket_" +:+ bucket +:+ ".available" in
  availability_logger ← io_setup_logger availability_logfile;
  found ← io_path_exists object_list_path;
  if negb found then
    io_print (ListNotFound object_list_path);;
    io_print RunGenerateFirst;;
    mret Returned
  else
    io_print EmptyLine;;
    file_list ← io_read_file object_list_path;
    availability_log ← read_log availability_logfile;
    file_list ← (if 0 <? length availability_log then
                   let prev_len := length file_list in
                   let file_list := diff file_list availability_log in
                   io_print (AvailabilityLogFound (len_diff prev_len file_list));;
                   mret file_list
                 else mret file_list);
    io_print (WillProcess (length file_list));;
    split_by ← lift (split_by (length file_list) thread_count);
    let est_hours :=
      (inject_Z (Z.of_nat (length file_list)) / inject_Z thread_count
       / 14 / 60 / 60)%Q in
    io_print (ThreadsFiles thread_count split_by);;
    answer ← input (ConfirmEstimate est_hours);
    (if bool_decide (answer ≠ "y") then raise (SystemExit 1) else mret ());;
    cs ← lift (chunks file_list split_by);
    mret (Started (start_threads
                     (λ chunk chunk_index,
                        check_files_availability_thread availability_logger
                          chunk bucket chunk_index)
                     cs)).

(** What a started thread runs: its target applied to its arguments. *)
Definition run_thread {Remote Client : Type}
    (new_client : nat → Remote → Client * Remote)
    (restore_object :
       Client → string → string → Z → string → Remote → restore_outcome * Remote)
    (head_object : Client → string → string → Remote → head_outcome * Remote)
    (th : thread) (w : world Remote) : result (world Remote) :=
  match th with
  | request_retrieval_thread progress_logger availability_logger files
      bucket_name retain_days tier chunk_index =>
      request_retrieval new_client restore_object progress_logger
        availability_logger files bucket_name retain_days tier chunk_index w
  | check_files_availability_thread availability_logger files bucket_name
      chunk_index =>
      check_files_availability new_client head_object availability_logger
        files bucket_name chunk_index w
  end.

(** An entry of [page['Contents']]. *)
Record s3_object : Type := { Key : string; StorageClass : string }.

(** The loop over the pages of [main_generate_list], on the objects of
    all pages in order. *)
Definition collect (st : list string * nat * list message) (obj : s3_object)
    : list string * nat * list message :=
  let '(glacier_objects, last_count, out) := st in
  if bool_decide (StorageClass obj = "GLACIER")
     || bool_decide (StorageClass obj = "DEEP_ARCHIVE")
  then
    let glacier_objects := glacier_objects ++ [Key obj] in
    if last_count + 1000 <=? length glacier_objects
    then (glacier_objects, length glacier_objects,
          out ++ [Found (length glacier_objects)])
    else (glacier_objects, last_count, out)
  else st.

Definition io_print_all (out : list message) : io unit :=
  λ p, (Process (disk p) (console p ++ out) (stdin p), Ok ()).

Definition io_write_list (output_filename : string)
    (glacier_objects : list string) : io unit :=
  λ p, (Process (write_list output_filename glacier_objects (disk p))
                (console p) (stdin p), Ok ()).

(** [main_generate_list].  The listing is given by the pages the
    paginator delivers and by the [ClientError] that ends them, if any. *)
Definition main_generate_list (pages : list (list s3_object))
    (failure : option ClientError) (output_filename : string) : io unit :=
  found ← io_path_exists output_filename;
  go_on ← (if found : bool then
             answer ← input (ConfirmOverwrite output_filename);
             mret (bool_decide (answer = "y"))
           else mret true);
  if go_on : bool then
    io_print ListingObjects;;
    let '(glacier_objects, _, out) := foldl collect ([], 0, []) (concat pages) in
    io_print_all out;;
    match failure with
    | Some e => io_print (Printed (text e))
    | None => mret ()
    end;;
    io_print (TotalCount (length glacier_objects) output_filename);;
    io_write_list output_filename glacier_objects
  else mret ().

End Orchestrator.

Import Orchestrator.

(** ** The entry point *)

Module Cli.




End Cli.

(** ** Notions used to state the properties *)

Module Spec.

(** The contract of SetDiff, in its own words: the keys of [source], in
    order, that do not appear in [excluded]. *)
Definition diff_spec (source excluded : list string) : list string :=
  filter (λ key, key ∉ excluded) source.

(** [ceil(a / b)] *)
Definition ceil_div (a b : nat) : nat := (a + b - 1) / b.

(** The slices [chunks] yields for a positive size. *)
Definition sliced {A : Type} (l : list A) (n : nat) : list (list A) :=
  map (λ i, slice l i (i + n)) (range_from (length l) 0 (length l) n).

(** The chunking contract as the specification words it: at most [N]
    chunks, all of the computed size but the last, which takes what is
    left over and so is at least as large as the others. *)
Definition partitions_as_stated (L : list string) (N : Z) : Prop :=
  ∀ s cs, split_by (length L) N = Ok s → chunks L s = Ok cs →
    concat cs = L ∧
    (Z.of_nat (length cs) ≤ N)%Z ∧
    (∀ i c, cs !! i = Some c → S i < length cs → Z.of_nat (length c) = s) ∧
    (∀ c, last cs = Some c → (s ≤ Z.of_nat (length c))%Z).

Definition ten_keys : list string :=
  ["k0"; "k1"; "k2"; "k3"; "k4"; "k5"; "k6"; "k7"; "k8"; "k9"].

Definition fraction (k n : nat) : Q :=
  (inject_Z (Z.of_nat k) / inject_Z (Z.of_nat n))%Q.

(** The samples a worker queues for the keys number [from] to
    [from + count - 1] of a chunk of [n] keys. *)
Definition samples (chunk_index from count n : nat) : list (nat * Q) :=
  map (λ k, (chunk_index, fraction k n)) (seq from count).

(** The keys for which [restore_object] was called, in order. *)
Definition restore_calls (log : list api_call) : list string :=
  omap (λ c, match c with RestoreObject _ k _ _ => Some k | _ => None end) log.

(** The outcome classes of the restore-request task, in the words of the
    specification. *)
Inductive verdict : Type :=
  | ToAvailabilityLog
  | ToRequestedLog
  | NoLogWrite
  | RefreshClient
  | Reported.

#[global] Instance verdict_eq_dec : EqDecision verdict.
Proof. solve_decision. Defined.

Definition classify (o : restore_outcome) : verdict :=
  match o with
  | RestoreResponse status =>
      if decide (status = 200%Z) then ToAvailabilityLog
      else if decide (status = 202%Z) then ToRequestedLog
      else NoLogWrite
  | RestoreFails e =>
      if decide (Code e = "NoSuchKey") then NoLogWrite
      else if decide (Code e = "RestoreAlreadyInProgress") then ToRequestedLog
      else if decide (Code e = "ExpiredToken") then RefreshClient
      else Reported
  end.

Definition log_after (v : verdict) (requested_log availability_log key : string)
    (fs : filesystem) : filesystem :=
  match v with
  | ToAvailabilityLog => logger_info availability_log key fs
  | ToRequestedLog => logger_info requested_log key fs
  | _ => fs
  end.

(** What one pass of a worker loop leaves of the counter and of the
    queue: the counter is one more, and one sample with the new counter
    over the chunk size is queued. *)
Definition one_sample {Remote Client : Type} (files : list string)
    (chunk_index : nat) (st st' : @locals Remote Client) : Prop :=
  counter st' = counter st + 1
  ∧ PERCENT_QUEUE (now st')
    = PERCENT_QUEUE (now st)
      ++ [(chunk_index, fraction (counter st + 1) (length files))].

(** A small object store for examples: the store counts the sessions it
    has opened, a client is the number of its session, and the first
    session has an expired token. *)
Definition demo_new_client (thread_id : nat) (sessions : nat) : nat * nat :=
  (S sessions, S sessions).

Definition demo_restore_object (client : nat) (bucket key : string) (days : Z)
    (tier : string) (sessions : nat) : restore_outcome * nat :=
  if client =? 1
  then (RestoreFails {| Code := "ExpiredToken"; text := "token expired" |}, sessions)
  else (RestoreResponse 202, sessions).

Definition demo_head_object (client : nat) (bucket key : string) (sessions : nat)
    : head_outcome * nat :=
  (HeadResponse ∅, sessions).

Definition demo_world : world nat := World ∅ [] [] 0 [].

Definition demo_files : list string := ["k1"; "k2"].

(** The locals of a worker of thread 0 when it enters its loop from
    [demo_world]. *)
Definition demo_locals : @locals nat nat :=
  Locals 1 0 (World ∅ [] [] 1 [NewSession 0]).

(** The arguments of a started thread. *)
Definition thread_files (th : thread) : list string :=
  match th with
  | request_retrieval_thread _ _ files _ _ _ _ => files
  | check_files_availability_thread _ files _ _ => files
  end.

Definition thread_availability_logger (th : thread) : string :=
  match th with
  | request_retrieval_thread _ availability_logger _ _ _ _ _ => availability_logger
  | check_files_availability_thread availability_logger _ _ _ => availability_logger
  end.

(** The entries of a log: the lines of its file, none when there is no
    such file. *)
Definition log_of (fs : filesystem) (logfile : string) : list string :=
  match read_file fs logfile with
  | Ok l => l
  | Raise _ => []
  end.

(** The block both orchestrators run for a log: when the log has
    entries, they are taken out of [lines] and a line says how many were
    skipped. *)
Definition skip_entries (found : Z → message) (lines log : list string)
    : io (list string) :=
  if 0 <? length log then
    let prev_len := length lines in
    let lines := diff lines log in
    io_print (found (len_diff prev_len lines));;
    mret lines
  else mret lines.

Definition skipped_note (found : Z → message) (lines log : list string)
    : list message :=
  if 0 <? length log then [found (len_diff (length lines) (diff lines log))]
  else [].

(** [if len(lines) < int(thread_count): thread_count = len(lines)] *)
Definition clamp (thread_count : Z) (len : nat) : Z :=
  if (Z.of_nat len <? thread_count)%Z then Z.of_nat len else thread_count.

Definition request_threads (bucket : string) (retain_for : Z)
    (retrieval_tier : string) (cs : list (list string)) : list thread :=
  start_threads
    (λ chunk chunk_index,
       request_retrieval_thread (bucket +:+ ".progress") (bucket +:+ ".available")
         chunk bucket retain_for retrieval_tier chunk_index) cs.

Definition check_threads (bucket : string) (cs : list (list string))
    : list thread :=
  start_threads
    (λ chunk chunk_index,
       check_files_availability_thread ("bucket_" +:+ bucket +:+ ".available")
         chunk bucket chunk_index) cs.

(** Two runs of the status check on bucket [b]: one where the only key
    of the list is already in the availability log, one with two keys
    and no log.  The user answers [y]. *)
Definition all_available : process :=
  Process (<["b.objects" := written_text ["k1"]]>
             (<["bucket_b.available" := written_text ["k1"]]> ∅))
          [] ["y"].

Definition two_keys : process :=
  Process (<["b.objects" := written_text ["k1"; "k2"]]> ∅) [] ["y"].

(** [percent_dict.get(worker_id)] *)
Fixpoint dict_get (percent_dict : list (nat * Q)) (worker_id : nat) : option Q :=
  match percent_dict with
  | [] => None
  | (k, v) :: rest => if k =? worker_id then Some v else dict_get rest worker_id
  end.

(** Last write wins: the fraction known for [worker_id] once [queue] has
    been merged into [percent_dict] is the one of its newest sample in
    the queue, or else the one the dictionary had. *)
Fixpoint latest (worker_id : nat) (percent_dict queue : list (nat * Q))
    : option Q :=
  match queue with
  | [] => dict_get percent_dict worker_id
  | (k, v) :: rest =>
      match latest worker_id [] rest with
      | Some newer => Some newer
      | None => if k =? worker_id then Some v else dict_get percent_dict worker_id
      end
  end.

Definition sum_Q (l : list Q) : Q := foldr Qplus 0%Q l.

(** The arithmetic mean *)
Definition mean (l : list Q) : Q :=
  (sum_Q l / inject_Z (Z.of_nat (length l)))%Q.

(** The per-worker breakdown: each worker with its fraction times 100. *)
Definition breakdown (percent_dict : list (nat * Q)) : list (nat * Q) :=
  map (λ '(chunk_id, percent), (chunk_id, (percent * 100)%Q)) percent_dict.

(** The loop of [render] from given values of [out_str] and
    [total_percent]. *)
Definition render_from (out_str : list (nat * Q)) (total_percent : Q)
    (percent_dict : list (nat * Q)) : list (nat * Q) * Q :=
  foldl (λ '(out_str, total_percent) '(chunk_id, percent),
           let percent := (percent * 100)%Q in
           (out_str ++ [(chunk_id, percent)], (total_percent + percent)%Q))
        (out_str, total_percent) percent_dict.

(** Two workers have reported, one half done and one done. *)
Definition half_and_full : world unit :=
  World ∅ [] [(0, (1 # 2)%Q); (1, 1%Q)] () [].

(** Whether the character [c] occurs in [s]. *)
Fixpoint has_char (c : ascii) (s : string) : bool :=
  match s with
  | EmptyString => false
  | String d s' => is_char d c || has_char c s'
  end.

(** A key with a carriage return and no line feed. *)
Definition cr_keys : list string := ["a" +:+ String CR "b"].

(** The keys [main_generate_list] keeps: those of the objects of class
    GLACIER or DEEP_ARCHIVE, in listing order. *)
Definition glacier_keys (objs : list s3_object) : list string :=
  map Key
    (filter (λ obj, StorageClass obj = "GLACIER" ∨ StorageClass obj = "DEEP_ARCHIVE")
            objs).

(** A key that can be kept on a line of its own: it has neither a line
    feed nor a carriage return. *)
Definition clean (k : string) : Prop :=
  has_char LF k = false ∧ has_char CR k = false.

(** The text of a log, the empty text when there is no such file: what
    [logger_info] appends to. *)
Definition log_text (fs : filesystem) (logfile : string) : string :=
  default EmptyString (fs !! logfile).

(** A list file with Windows line ends: each key is followed by a
    carriage return and a line feed. *)
Fixpoint written_crlf (keys : list string) : string :=
  match keys with
  | [] => EmptyString
  | k :: rest => k +:+ String CR (String LF EmptyString) +:+ written_crlf rest
  end.

(** A file read in the examples: three keys, ended by a carriage return
    and line feed, by a carriage return, and by nothing. *)
Definition mixed_ends : filesystem :=
  {["b.objects" := "a" +:+ String CR (String LF ("b" +:+ String CR "c"))]}.

(** The outcome classes that write a log. *)
Definition logged_class (v : verdict) : bool :=
  match v with
  | ToAvailabilityLog | ToRequestedLog => true
  | _ => false
  end.

(** The keys for which [head_object] was called, in order. *)
Definition head_calls (log : list api_call) : list string :=
  omap (λ c, match c with HeadObject _ k => Some k | _ => None end) log.

(** The answer to [head_object] says that the restore is complete: it
    has an [x-amz-restore] header and the marker [ongoing-request="false"]
    occurs in its value. *)
Definition restore_complete (o : head_outcome) : Prop :=
  ∃ headers x pre post,
    o = HeadResponse headers
    ∧ headers !! "x-amz-restore" = Some x
    ∧ x = pre +:+ ongoing_request_false +:+ post.

(** The answer is an error with the code [ExpiredToken]. *)
Definition token_expired (o : head_outcome) : Prop :=
  ∃ e, o = HeadFails e ∧ Code e = "ExpiredToken".

(** The store answers every request for [f] with an outcome that writes
    a log, or with none that does. *)
Definition always_logged {Remote Client : Type}
    (restore_object :
       Client → string → string → Z → string → Remote → restore_outcome * Remote)
    (bucket : string) (days : Z) (tier f : string) : Prop :=
  ∀ c r, logged_class (classify (restore_object c bucket f days tier r).1) = true.

Definition never_logged {Remote Client : Type}
    (restore_object :
       Client → string → string → Z → string → Remote → restore_outcome * Remote)
    (bucket : string) (days : Z) (tier f : string) : Prop :=
  ∀ c r, logged_class (classify (restore_object c bucket f days tier r).1) = false.

(** [fs'] is [fs] with text appended to the files named in [loggers],
    and nothing else changed. *)
Definition appended_to (loggers : list string) (fs fs' : filesystem) : Prop :=
  (∀ name, name ∉ loggers → fs' !! name = fs !! name)
  ∧ (∀ name, ∃ suffix, log_text fs' name = log_text fs name +:+ suffix).

(** A store for the examples whose every object is restored, and one
    that accepts every restore request. *)
Definition restored_header : string :=
  ongoing_request_false +:+ ", expiry-date=soon".

Definition demo_head_restored (client : nat) (bucket key : string)
    (sessions : nat) : head_outcome * nat :=
  (HeadResponse {["x-amz-restore" := restored_header]}, sessions).

Definition demo_restore_accepted (client : nat) (bucket key : string) (days : Z)
    (tier : string) (sessions : nat) : restore_outcome * nat :=
  (RestoreResponse 202, sessions).

(** A store in which [k1] is restored already and the restore of any
    other key is accepted. *)
Definition demo_restore_by_key (client : nat) (bucket key : string) (days : Z)
    (tier : string) (sessions : nat) : restore_outcome * nat :=
  if bool_decide (key = "k1") then (RestoreResponse 200, sessions)
  else (RestoreResponse 202, sessions).


(** The [chunk_index] a thread was started with. *)
Definition thread_chunk_index (th : thread) : nat :=
  match th with
  | request_retrieval_thread _ _ _ _ _ _ chunk_index => chunk_index
  | check_files_availability_thread _ _ _ chunk_index => chunk_index
  end.

(** How both orchestrators end once the prompt is printed: without a
    line to read [input] raises, any answer but [y] exits with status
    1, and on [y] the threads are started. *)
Definition after_prompt (fs : filesystem) (out : list message)
    (answers : list string) (ths : list thread) : process * result ending :=
  match answers with
  | [] => (Process fs out [], Raise EOFError)
  | answer :: rest =>
      (Process fs out rest,
       if bool_decide (answer = "y") then Ok (Started ths)
       else Raise (SystemExit 1))
  end.


(** The lines [Found: 1000], [Found: 2000], ... up to the last full
    thousand of [n]. *)
Definition found_lines (n : nat) : list message :=
  map (λ i, Found (1000 * S i)) (seq 0 (n / 1000)).







End Spec.

Import Spec.

(** * Properties *)

(** ** [diff] *)

Section diff_facts.
Implicit Types L E : list string.

Lemma diff_refines L E : diff L E = diff_spec L E.
Proof.
  unfold diff, diff_spec. apply list_filter_iff. intros x.
  by rewrite elem_of_list_to_set.
Qed.

Lemma diff_elem_of L E x : x ∈ diff L E ↔ x ∈ L ∧ x ∉ E.
Proof.
  rewrite diff_refines. unfold diff_spec. rewrite list_elem_of_filter. tauto.
Qed.

Lemma diff_sublist L E : sublist (diff L E) L.
Proof. unfold diff. apply sublist_filter. Qed.

Lemma diff_keeps_occurrences L E x :
  x ∉ E → filter (λ y, y = x) (diff L E) = filter (λ y, y = x) L.
Proof.
  intros Hx. rewrite diff_refines. unfold diff_spec.
  induction L as [|a L IH]; [done|].
  rewrite !filter_cons. destruct (decide (a ∉ E)) as [Ha|Ha].
  - rewrite filter_cons. destruct (decide (a = x)); by rewrite IH.
  - destruct (decide (a = x)) as [->|]; [done|]. by rewrite IH.
Qed.

Lemma diff_nil_r L : diff L [] = L.
Proof.
  rewrite diff_refines. unfold diff_spec.
  induction L as [|a L IH]; [done|].
  rewrite filter_cons. destruct (decide (a ∉ [])) as [|Hn].
  - by rewrite IH.
  - exfalso. apply Hn. apply not_elem_of_nil.
Qed.

Lemma diff_self L : diff L L = [].
Proof.
  rewrite diff_refines. unfold diff_spec.
  assert (Hgen : ∀ K : list string, K ⊆ L → filter (λ key, key ∉ L) K = []).
  { induction K as [|a K IH]; intros HK; [done|].
    rewrite filter_cons_False by set_solver. apply IH. set_solver. }
  by apply Hgen.
Qed.

(** C2. For all key lists [L] and [E], [diff L E] is the list of the
    elements of [L] that do not occur in [E], in the order of [L] and
    with every occurrence of a kept key; [diff L [] = L] and
    [diff L L = []]. *)
Theorem diff_correct L E :
  diff L E = diff_spec L E
  ∧ (∀ x, x ∈ diff L E ↔ x ∈ L ∧ x ∉ E)
  ∧ sublist (diff L E) L
  ∧ (∀ x, x ∉ E → filter (λ y, y = x) (diff L E) = filter (λ y, y = x) L)
  ∧ diff L [] = L
  ∧ diff L L = [].
Proof.
  split; [apply diff_refines|]. split; [apply diff_elem_of|].
  split; [apply diff_sublist|]. split; [apply diff_keeps_occurrences|].
  split; [apply diff_nil_r | apply diff_self].
Qed.

End diff_facts.

(** ** [chunks] and the chunk size *)

Section chunk_facts.
Context {A : Type}.
Implicit Types (l c : list A) (n i : nat).

Lemma range_from_lookup fuel start stop n i :
  0 < n → stop ≤ start + fuel →
  range_from fuel start stop n !! i
  = if decide (start + i * n < stop) then Some (start + i * n) else None.
Proof.
  intros Hn. revert start i.
  induction fuel as [|fuel IH]; intros start i Hfuel; simpl.
  - rewrite decide_False by lia. done.
  - destruct (Nat.ltb_spec start stop) as [Hlt|Hge].
    + destruct i as [|i]; simpl.
      * rewrite decide_True by lia. f_equal. lia.
      * rewrite IH by lia.
        destruct (decide (start + n + i * n < stop));
          [rewrite decide_True by lia | rewrite decide_False by lia];
          [f_equal; lia | done].
    + rewrite decide_False by lia. done.
Qed.

Lemma range_from_concat l fuel start n :
  0 < n → length l ≤ start + fuel →
  concat (map (λ i, slice l i (i + n)) (range_from fuel start (length l) n))
  = drop start l.
Proof.
  intros Hn. revert start.
  induction fuel as [|fuel IH]; intros start Hfuel; simpl.
  - by rewrite drop_ge by lia.
  - destruct (Nat.ltb_spec start (length l)) as [Hlt|Hge]; simpl.
    + rewrite IH by lia. unfold slice.
      replace (start + n - start) with n by lia.
      rewrite <- (take_drop n (drop start l)) at 2.
      by rewrite drop_drop.
    + by rewrite drop_ge by lia.
Qed.

Lemma ceil_div_lt a n k : 0 < n → k < ceil_div a n ↔ k * n < a.
Proof.
  intros Hn. unfold ceil_div. split; intros H.
  - destruct (decide (k * n < a)) as [|Hge]; [done|]. exfalso.
    assert ((a + n - 1) / n < S k); [|lia].
    apply Nat.Div0.div_lt_upper_bound; lia.
  - assert (S k ≤ (a + n - 1) / n); [|lia].
    apply Nat.div_le_lower_bound; lia.
Qed.

Lemma chunks_pos l (n : Z) :
  (0 < n)%Z → chunks l n = Ok (sliced l (Z.to_nat n)).
Proof.
  intros Hn. unfold chunks, range0.
  destruct (Z.eqb_spec n 0); [lia|].
  destruct (Z.ltb_spec n 0); [lia|]. done.
Qed.

Lemma sliced_lookup l n i :
  0 < n →
  sliced l n !! i
  = if decide (i * n < length l) then Some (take n (drop (i * n) l)) else None.
Proof.
  intros Hn. unfold sliced. rewrite list_lookup_fmap.
  rewrite range_from_lookup by lia. simpl.
  destruct (decide (i * n < length l)); [|done]. simpl. unfold slice.
  do 3 f_equal. lia.
Qed.

Lemma sliced_length l n : 0 < n → length (sliced l n) = ceil_div (length l) n.
Proof.
  intros Hn.
  assert (∀ k, k < length (sliced l n) ↔ k < ceil_div (length l) n) as Hk.
  { intros k. rewrite ceil_div_lt by done.
    rewrite <- lookup_lt_is_Some, sliced_lookup by done.
    destruct (decide (k * n < length l)); split; intros H;
      try done; try lia; by destruct H. }
  destruct (Nat.lt_trichotomy (length (sliced l n)) (ceil_div (length l) n))
    as [H|[H|H]]; [|done|].
  - apply Hk in H. lia.
  - apply Hk in H. lia.
Qed.

Lemma sliced_concat l n : 0 < n → concat (sliced l n) = l.
Proof. intros Hn. unfold sliced. by rewrite range_from_concat by lia. Qed.

Lemma sliced_chunk_length l n i c :
  0 < n → sliced l n !! i = Some c →
  1 ≤ length c ≤ n ∧ (S i < length (sliced l n) → length c = n).
Proof.
  intros Hn. rewrite sliced_lookup by done.
  destruct (decide (i * n < length l)) as [Hi|]; [|done].
  intros [= <-]. rewrite length_take, length_drop. split; [lia|].
  rewrite sliced_length, ceil_div_lt by done. simpl. lia.
Qed.

Lemma sliced_nonempty l n c : 0 < n → c ∈ sliced l n → c ≠ [].
Proof.
  intros Hn [i Hi]%list_elem_of_lookup.
  apply sliced_chunk_length in Hi as [Hlen _]; [|done].
  intros ->. simpl in Hlen. lia.
Qed.
End chunk_facts.

Lemma split_by_pos (len : nat) (N : Z) :
  (0 < N)%Z →
  split_by len N = Ok (Z.max (Z.of_nat len / N) 1)
  ∧ Z.to_nat (Z.max (Z.of_nat len / N) 1) = Nat.max (len / Z.to_nat N) 1.
Proof.
  intros HN. unfold split_by. destruct (Z.eqb_spec N 0); [lia|].
  rewrite Z.quot_div_nonneg by lia. split; [done|].
  rewrite Z2Nat.inj_max, Z2Nat.inj_div, Nat2Z.id by lia. done.
Qed.

Lemma chunk_count_bounds (len m : nat) :
  1 ≤ m ≤ len →
  m ≤ ceil_div len (Nat.max (len / m) 1) ≤ 2 * m - 1.
Proof.
  intros Hm.
  assert (Hq : 1 ≤ len / m) by (apply Nat.div_le_lower_bound; lia).
  rewrite Nat.max_l by lia.
  pose proof (Nat.div_mod_eq len m) as Hdm.
  pose proof (Nat.mod_upper_bound len m ltac:(lia)) as Hr.
  set (q := len / m) in *. set (r := len mod m) in *.
  split.
  - assert (m - 1 < ceil_div len q); [|lia].
    apply ceil_div_lt; [lia|]. nia.
  - assert (¬ (2 * m - 1 < ceil_div len q)); [|lia].
    rewrite ceil_div_lt by lia.
    destruct m as [|m']; [lia|].
    replace (2 * S m' - 1) with (S m' + m') by lia.
    assert (m' ≤ m' * q) by nia. nia.
Qed.

(** C1, as the code has it.  For a non-empty key list [L] and a worker
    count [N] with [1 <= N <= len(L)], the chunk size is
    [s = max(floor(len(L)/N), 1)] and slicing by [s] partitions [L]: the
    chunks concatenated in order give [L] back; there are
    [ceil(len(L)/s)] of them, which is at least [N] and at most [2N-1];
    every chunk but the last has exactly [s] keys; the last chunk has
    between 1 and [s] keys, so what is left over goes to a further,
    shorter chunk. *)
Theorem chunking_partitions (L : list string) (N : Z) :
  L ≠ [] → (1 ≤ N ≤ Z.of_nat (length L))%Z →
  ∃ s cs,
    split_by (length L) N = Ok s ∧ chunks L s = Ok cs ∧
    s = Z.max (Z.of_nat (length L) / N) 1 ∧
    concat cs = L ∧
    length cs = ceil_div (length L) (Z.to_nat s) ∧
    (N ≤ Z.of_nat (length cs) ≤ 2 * N - 1)%Z ∧
    (∀ i c, cs !! i = Some c → S i < length cs → Z.of_nat (length c) = s) ∧
    (∀ c, last cs = Some c → (1 ≤ Z.of_nat (length c) ≤ s)%Z).
Proof.
  intros HL HN.
  destruct (split_by_pos (length L) N) as [Hs Hn]; [lia|].
  set (s := Z.max (Z.of_nat (length L) / N) 1) in *.
  assert (Hspos : (0 < s)%Z) by lia.
  exists s, (sliced L (Z.to_nat s)).
  assert (Hnpos : 0 < Z.to_nat s) by lia.
  split; [done|]. split; [by apply chunks_pos|]. split; [done|].
  split; [by apply sliced_concat|]. split; [by apply sliced_length|].
  split; [|split].
  - rewrite sliced_length, Hn by done.
    pose proof (chunk_count_bounds (length L) (Z.to_nat N) ltac:(lia)). lia.
  - intros i c Hi Hlt.
    apply sliced_chunk_length in Hi as [_ Hi]; [|done]. rewrite Hi by done. lia.
  - intros c Hc. rewrite last_lookup in Hc.
    apply sliced_chunk_length in Hc as [Hc _]; [|done]. lia.
Qed.

(** Ten keys and three workers satisfy the hypotheses. *)
Lemma chunking_partitions_witness :
  ten_keys ≠ [] ∧ (1 ≤ 3 ≤ Z.of_nat (length ten_keys))%Z ∧
  ∃ s cs,
    split_by (length ten_keys) 3 = Ok s ∧ chunks ten_keys s = Ok cs ∧
    s = Z.max (Z.of_nat (length ten_keys) / 3) 1 ∧
    concat cs = ten_keys ∧
    length cs = ceil_div (length ten_keys) (Z.to_nat s) ∧
    (3 ≤ Z.of_nat (length cs) ≤ 2 * 3 - 1)%Z ∧
    (∀ i c, cs !! i = Some c → S i < length cs → Z.of_nat (length c) = s) ∧
    (∀ c, last cs = Some c → (1 ≤ Z.of_nat (length c) ≤ s)%Z).
Proof.
  split; [discriminate|]. split; [simpl; lia|].
  apply (chunking_partitions ten_keys 3); [discriminate | simpl; lia].
Defined.

(** Ten keys and three workers give the four chunks of sizes 3, 3, 3
    and 1: more chunks than workers, and a last chunk smaller than the
    others. *)
Lemma chunking_counterexample :
  (1 ≤ 3 ≤ Z.of_nat (length ten_keys))%Z
  ∧ (split_by (length ten_keys) 3 ≫= chunks ten_keys)
    = Ok [["k0"; "k1"; "k2"]; ["k3"; "k4"; "k5"]; ["k6"; "k7"; "k8"]; ["k9"]]
  ∧ ¬ partitions_as_stated ten_keys 3.
Proof.
  split; [simpl; lia|]. split; [reflexivity|]. intros H.
  destruct (H 3%Z (sliced ten_keys 3)) as (_ & Hcount & _); [done|done|].
  vm_compute in Hcount. by apply Hcount.
Qed.

(** ** The workers *)

Section worker_facts.
Context {Remote Client : Type}.
Variable new_client : nat → Remote → Client * Remote.
Variable restore_object :
  Client → string → string → Z → string → Remote → restore_outcome * Remote.
Variable head_object :
  Client → string → string → Remote → head_outcome * Remote.
Variables (progress_logger availability_logger : string).
Variables (files : list string) (bucket_name : string) (retain_days : Z).
Variables (tier : string) (chunk_index : nat).

Abbreviation locals := (@locals Remote Client).
Abbreviation request_body :=
  (request_retrieval_body new_client restore_object progress_logger
     availability_logger files bucket_name retain_days tier chunk_index).
Abbreviation check_body :=
  (check_files_availability_body new_client head_object availability_logger
     files bucket_name chunk_index).

Lemma truediv_ok a b : b ≠ 0 → truediv a b = Ok (fraction a b).
Proof. intros Hb. unfold truediv. by destruct (Nat.eqb_spec b 0). Qed.

Lemma report_ok (st : locals) :
  files ≠ [] →
  report files chunk_index st
  = Ok (Locals (s3_client st) (counter st + 1)
          (queue_put (chunk_index, fraction (counter st + 1) (length files))
                     (now st))).
Proof.
  intros Hf. unfold report. rewrite truediv_ok; [done|].
  by destruct files.
Qed.

Lemma request_body_sample (st : locals) f :
  files ≠ [] → ∃ st', request_body st f = Ok st' ∧ one_sample files chunk_index st st'.
Proof.
  intros Hf. unfold request_retrieval_body.
  destruct (restore_object _ _ _ _ _ _) as [[status|e] r].
  - destruct (status =? 200)%Z; [|destruct (status =? 202)%Z];
      rewrite report_ok by done; eexists; (split; [done|]); by split.
  - repeat case_bool_decide;
      try (unfold refresh_credentials; simpl; destruct (new_client _ _));
      rewrite report_ok by done; eexists; (split; [done|]); by split.
Qed.

Lemma check_body_sample (st : locals) f :
  files ≠ [] → ∃ st', check_body st f = Ok st' ∧ one_sample files chunk_index st st'.
Proof.
  intros Hf. unfold check_files_availability_body.
  destruct (head_object _ _ _ _) as [[headers|e] r].
  - destruct (headers !! _) as [x|]; [destruct (contains _ x)|];
      rewrite report_ok by done; eexists; (split; [done|]); by split.
  - repeat case_bool_decide;
      try (unfold refresh_credentials; simpl; destruct (new_client _ _));
      rewrite report_ok by done; eexists; (split; [done|]); by split.
Qed.

(** A loop whose body queues one sample per key queues the samples
    [counter+1 .. counter+len(l)] over [l]. *)
Lemma for_each_samples (body : locals → string → result locals) :
  (∀ st f, ∃ st', body st f = Ok st' ∧ one_sample files chunk_index st st') →
  ∀ l st, ∃ st',
    for_each body st l = Ok st'
    ∧ counter st' = counter st + length l
    ∧ PERCENT_QUEUE (now st')
      = PERCENT_QUEUE (now st)
        ++ samples chunk_index (counter st + 1) (length l) (length files).
Proof.
  intros Hbody. induction l as [|f l IH]; intros st; simpl.
  - exists st. split; [done|]. split; [lia|]. by rewrite app_nil_r.
  - destruct (Hbody st f) as (st1 & -> & Hc & Hq). simpl.
    destruct (IH st1) as (st' & -> & Hc' & Hq').
    exists st'. split; [done|]. split; [lia|].
    rewrite Hq', Hq, Hc, <- app_assoc. unfold samples. simpl.
    by replace (counter st + 1 + 1) with (S (counter st + 1)) by lia.
Qed.

Lemma fraction_le k k' n : k ≤ k' → (fraction k n <= fraction k' n)%Q.
Proof.
  intros Hk. unfold fraction, Qdiv. apply Qmult_le_compat_r.
  - rewrite <- Zle_Qle. lia.
  - apply Qinv_le_0_compat. replace 0%Q with (inject_Z 0) by done.
    rewrite <- Zle_Qle. lia.
Qed.

Lemma fraction_full n : 0 < n → (fraction n n == 1)%Q.
Proof.
  intros Hn. unfold fraction, Qdiv. apply Qmult_inv_r.
  replace 0%Q with (inject_Z 0) by done. rewrite inject_Z_injective. lia.
Qed.

Lemma fraction_range k n : 0 < n → k ≤ n → (0 <= fraction k n <= 1)%Q.
Proof.
  intros Hn Hk. split.
  - assert (fraction 0 n == 0)%Q as <- by (unfold fraction, Qdiv; simpl; ring).
    apply fraction_le. lia.
  - rewrite <- (fraction_full n) by done. by apply fraction_le.
Qed.

Lemma samples_lookup ci from count n i :
  (samples ci from count n).*2 !! i
  = if decide (i < count) then Some (fraction (from + i) n) else None.
Proof.
  unfold samples. rewrite list_lookup_fmap, list_lookup_fmap.
  destruct (decide (i < count)).
  - by rewrite lookup_seq_lt.
  - by rewrite lookup_seq_ge by lia.
Qed.

Lemma request_retrieval_samples (w : world Remote) :
  files ≠ [] →
  ∃ w', request_retrieval new_client restore_object progress_logger
          availability_logger files bucket_name retain_days tier chunk_index w
        = Ok w'
        ∧ PERCENT_QUEUE w'
          = PERCENT_QUEUE w ++ samples chunk_index 1 (length files) (length files).
Proof.
  intros Hf. unfold request_retrieval, refresh_credentials.
  destruct (new_client _ _) as [s3 r].
  edestruct (for_each_samples request_body) as (st' & -> & _ & Hq).
  { intros st f. by apply request_body_sample. }
  eexists. split; [done|]. by rewrite Hq.
Qed.

Lemma check_files_availability_samples (w : world Remote) :
  files ≠ [] →
  ∃ w', check_files_availability new_client head_object availability_logger
          files bucket_name chunk_index w
        = Ok w'
        ∧ PERCENT_QUEUE w'
          = PERCENT_QUEUE w ++ samples chunk_index 1 (length files) (length files).
Proof.
  intros Hf. unfold check_files_availability, refresh_credentials.
  destruct (new_client _ _) as [s3 r].
  edestruct (for_each_samples check_body) as (st' & -> & _ & Hq).
  { intros st f. by apply check_body_sample. }
  eexists. split; [done|]. by rewrite Hq.
Qed.

(** C6. A worker, of either kind, that processes a non-empty chunk
    queues one sample after each key, whatever the outcome for the key,
    with fraction (keys processed so far) / (chunk size).  The fractions
    one worker queues are therefore 1/n, 2/n, ..., n/n: each lies in
    [0,1], each is at most the next, and the last one equals 1. *)
Theorem progress_samples (w : world Remote) :
  files ≠ [] →
  (∃ w', request_retrieval new_client restore_object progress_logger
           availability_logger files bucket_name retain_days tier chunk_index w
         = Ok w'
         ∧ PERCENT_QUEUE w'
           = PERCENT_QUEUE w ++ samples chunk_index 1 (length files) (length files))
  ∧ (∃ w', check_files_availability new_client head_object availability_logger
             files bucket_name chunk_index w
           = Ok w'
           ∧ PERCENT_QUEUE w'
             = PERCENT_QUEUE w ++ samples chunk_index 1 (length files) (length files))
  ∧ (∀ st f, ∃ st', request_body st f = Ok st' ∧ one_sample files chunk_index st st')
  ∧ (∀ st f, ∃ st', check_body st f = Ok st' ∧ one_sample files chunk_index st st')
  ∧ let fractions := (samples chunk_index 1 (length files) (length files)).*2 in
    length fractions = length files
    ∧ (∀ i x, fractions !! i = Some x →
         x = fraction (S i) (length files) ∧ (0 <= x <= 1)%Q)
    ∧ (∀ i x y, fractions !! i = Some x → fractions !! S i = Some y → (x <= y)%Q)
    ∧ (∃ y, last fractions = Some y ∧ (y == 1)%Q).
Proof.
  intros Hf.
  assert (Hlen : 0 < length files) by (destruct files; [done | simpl; lia]).
  split; [by apply request_retrieval_samples|].
  split; [by apply check_files_availability_samples|].
  split; [intros; by apply request_body_sample|].
  split; [intros; by apply check_body_sample|].
  assert (Hl : length (samples chunk_index 1 (length files) (length files)).*2
               = length files).
  { unfold samples. by rewrite !length_fmap, length_seq. }
  simpl. split; [|split; [|split]].
  - done.
  - intros i x. rewrite samples_lookup.
    destruct (decide (i < length files)); [|done]. intros [= <-].
    split; [done|]. apply fraction_range; lia.
  - intros i x y. rewrite !samples_lookup.
    destruct (decide (i < length files)); [|done].
    destruct (decide (S i < length files)); [|done].
    intros [= <-] [= <-]. apply fraction_le. lia.
  - rewrite last_lookup, Hl, samples_lookup.
    rewrite decide_True by lia. eexists. split; [done|].
    replace (1 + pred (length files)) with (length files) by lia.
    by apply fraction_full.
Qed.

Lemma restore_calls_app l1 l2 :
  restore_calls (l1 ++ l2) = restore_calls l1 ++ restore_calls l2.
Proof. unfold restore_calls. apply omap_app. Qed.

(** One pass of the loop body of [request_retrieval], case by case. *)
Lemma request_body_classified (st : locals) f :
  files ≠ [] →
  ∃ st',
    request_body st f = Ok st'
    ∧ counter st' = counter st + 1
    ∧ match restore_object (s3_client st) bucket_name f retain_days tier
              (remote (now st)) with
      | (o, r) =>
        filesys (now st')
        = log_after (classify o) progress_logger availability_logger f
                    (filesys (now st))
        ∧ (classify o = RefreshClient →
             (s3_client st', remote (now st')) = new_client chunk_index r
             ∧ api_log (now st')
               = api_log (now st)
                 ++ [RestoreObject bucket_name f retain_days tier;
                     NewSession chunk_index])
        ∧ (classify o ≠ RefreshClient →
             s3_client st' = s3_client st ∧ remote (now st') = r
             ∧ api_log (now st')
               = api_log (now st) ++ [RestoreObject bucket_name f retain_days tier])
        ∧ (classify o = Reported →
             ∃ e, o = RestoreFails e
                  ∧ stdout (now st') = stdout (now st) ++ [KeyFailed f (text e)])
      end.
Proof.
  intros Hf. unfold request_retrieval_body.
  destruct (restore_object _ _ _ _ _ _) as [[status|e] r]; unfold classify.
  - destruct (Z.eqb_spec status 200) as [->|H200];
      [|destruct (Z.eqb_spec status 202) as [->|H202]];
      rewrite report_ok by done; eexists; (split; [done|]); simpl;
      repeat case_decide; try lia; try done.
  - repeat case_bool_decide; repeat case_decide; try done;
      try (unfold refresh_credentials; simpl;
           destruct (new_client _ _) as [s3 r'] eqn:Hnew);
      rewrite report_ok by done; eexists; (split; [done|]); simpl;
      repeat split; try done; try (by rewrite <- app_assoc).
    intros _. by exists e.
Qed.

Lemma request_body_calls (st : locals) f :
  files ≠ [] →
  ∃ st', request_body st f = Ok st'
         ∧ restore_calls (api_log (now st'))
           = restore_calls (api_log (now st)) ++ [f].
Proof.
  intros Hf. destruct (request_body_classified st f Hf) as (st' & Hst & _ & H).
  exists st'. split; [done|].
  destruct (restore_object _ _ _ _ _ _) as [o r].
  destruct H as (_ & Hr & Hn & _).
  destruct (decide (classify o = RefreshClient)) as [Hc|Hc].
  - destruct (Hr Hc) as [_ ->]. by rewrite restore_calls_app.
  - destruct (Hn Hc) as (_ & _ & ->). by rewrite restore_calls_app.
Qed.

Lemma for_each_calls l (st : locals) :
  (l ≠ [] → files ≠ []) →
  ∃ st', for_each request_body st l = Ok st'
         ∧ restore_calls (api_log (now st'))
           = restore_calls (api_log (now st)) ++ l.
Proof.
  revert st. induction l as [|f l IH]; intros st Hf; simpl.
  - exists st. by rewrite app_nil_r.
  - assert (Hfiles : files ≠ []) by (by apply Hf).
    destruct (request_body_calls st f Hfiles) as (st1 & -> & H1). simpl.
    destruct (IH st1) as (st' & -> & H'); [done|]. exists st'. split; [done|].
    by rewrite H', H1, <- app_assoc.
Qed.

Lemma request_retrieval_calls (w : world Remote) :
  ∃ w', request_retrieval new_client restore_object progress_logger
          availability_logger files bucket_name retain_days tier chunk_index w
        = Ok w'
        ∧ restore_calls (api_log w') = restore_calls (api_log w) ++ files.
Proof.
  unfold request_retrieval, refresh_credentials.
  destruct (new_client _ _) as [s3 r].
  edestruct (for_each_calls files) as (st' & -> & H); [done|].
  eexists. split; [done|]. simpl. rewrite H. simpl.
  by rewrite restore_calls_app, app_nil_r.
Qed.

(** What a message logged to [logger] leaves in the files: the file of
    the logger holds its old text, then the message and a line end;
    every other file is as it was. *)
Lemma logger_info_effect logger msg (fs : filesystem) :
  logger_info logger msg fs !! logger
  = Some (log_text fs logger +:+ msg +:+ String LF "")
  ∧ ∀ name, name ≠ logger → logger_info logger msg fs !! name = fs !! name.
Proof.
  unfold logger_info, log_text. split.
  - by rewrite lookup_insert_eq.
  - intros name Hne. by rewrite lookup_insert_ne.
Qed.

(** C5. For every key [f] of the chunk, the pass of the loop of
    [request_retrieval] for [f] does not raise, and its effect is the
    one of the class of the outcome: status 200 appends [f] to the
    availability log; status 202 and a RestoreAlreadyInProgress error
    append [f] to the requested log; a NoSuchKey error writes no log; an
    ExpiredToken error replaces the client by a new one and writes no
    log; any other error code is printed and writes no log.  Appending
    [f] to a log means that afterwards the file of the log holds its
    old text followed by [f] and a line end, and that every other file
    is as it was; writing no log means that no file has changed.  In
    every case [restore_object] is called once for [f] and the loop
    goes on with the next key; over the whole chunk the worker returns
    and has called [restore_object] once for each key, in order. *)
Theorem request_outcomes_classified (st : locals) f :
  f ∈ files →
  (∃ st',
     request_body st f = Ok st'
     ∧ counter st' = counter st + 1
     ∧ match restore_object (s3_client st) bucket_name f retain_days tier
               (remote (now st)) with
       | (o, r) =>
         filesys (now st')
         = log_after (classify o) progress_logger availability_logger f
                     (filesys (now st))
         ∧ match classify o with
           | ToAvailabilityLog =>
               filesys (now st') !! availability_logger
               = Some (log_text (filesys (now st)) availability_logger
                       +:+ f +:+ String LF "")
               ∧ ∀ name, name ≠ availability_logger →
                   filesys (now st') !! name = filesys (now st) !! name
           | ToRequestedLog =>
               filesys (now st') !! progress_logger
               = Some (log_text (filesys (now st)) progress_logger
                       +:+ f +:+ String LF "")
               ∧ ∀ name, name ≠ progress_logger →
                   filesys (now st') !! name = filesys (now st) !! name
           | NoLogWrite | RefreshClient | Reported =>
               filesys (now st') = filesys (now st)
           end
         ∧ (classify o = RefreshClient →
              (s3_client st', remote (now st')) = new_client chunk_index r
              ∧ api_log (now st')
                = api_log (now st)
                  ++ [RestoreObject bucket_name f retain_days tier;
                      NewSession chunk_index])
         ∧ (classify o ≠ RefreshClient →
              s3_client st' = s3_client st ∧ remote (now st') = r
              ∧ api_log (now st')
                = api_log (now st)
                  ++ [RestoreObject bucket_name f retain_days tier])
         ∧ (classify o = Reported →
              ∃ e, o = RestoreFails e
                   ∧ stdout (now st') = stdout (now st) ++ [KeyFailed f (text e)])
       end
     ∧ ∀ rest, for_each request_body st (f :: rest)
               = for_each request_body st' rest)
  ∧ (∀ w, ∃ w',
       request_retrieval new_client restore_object progress_logger
         availability_logger files bucket_name retain_days tier chunk_index w
       = Ok w'
       ∧ restore_calls (api_log w') = restore_calls (api_log w) ++ files).
Proof.
  intros Hin.
  assert (Hf : files ≠ []) by (intros E; rewrite E in Hin; by apply not_elem_of_nil in Hin).
  split; [|apply request_retrieval_calls].
  destruct (request_body_classified st f Hf) as (st' & Hst & Hc & Hcases).
  exists st'. split; [done|]. split; [done|]. split.
  - destruct (restore_object _ _ _ _ _ _) as [o r].
    destruct Hcases as (Hfs & Hrest). split; [done|]. split; [|done].
    rewrite Hfs. destruct (classify o); cbn [log_after];
      first [done | apply logger_info_effect].
  - intros rest. simpl. by rewrite Hst.
Qed.
End worker_facts.


(** A worker of the example store on the two keys of [demo_files]. *)
Lemma progress_samples_witness :
  demo_files ≠ []
  ∧ ∃ w',
      request_retrieval demo_new_client demo_restore_object "b.progress"
        "b.available" demo_files "b" 3 "Standard" 0 demo_world
      = Ok w'
      ∧ PERCENT_QUEUE w'
        = PERCENT_QUEUE demo_world
          ++ samples 0 1 (length demo_files) (length demo_files).
Proof.
  assert (H : demo_files ≠ []) by discriminate.
  split; [exact H|].
  exact (proj1 (progress_samples demo_new_client demo_restore_object
                  demo_head_object "b.progress" "b.available" demo_files "b" 3
                  "Standard" 0 demo_world H)).
Defined.

(** The first key of [demo_files] at the example store, whose first
    session has an expired token: the client is replaced, nothing is
    logged, and the key is not requested again. *)
Lemma request_outcomes_classified_witness :
  "k1" ∈ demo_files
  ∧ "k2" ∈ demo_files
  ∧ (∃ st',
       request_retrieval_body demo_new_client demo_restore_by_key "b.progress"
         "b.available" demo_files "b" 3 "Standard" 0 demo_locals "k1"
       = Ok st'
       ∧ counter st' = 0 + 1
       ∧ filesys (now st') !! "b.available" = Some ("k1" +:+ String LF "")
       ∧ filesys (now st') !! "b.progress" = None)
  ∧ (∃ st',
       request_retrieval_body demo_new_client demo_restore_by_key "b.progress"
         "b.available" demo_files "b" 3 "Standard" 0 demo_locals "k2"
       = Ok st'
       ∧ filesys (now st') !! "b.progress" = Some ("k2" +:+ String LF "")
       ∧ filesys (now st') !! "b.available" = None)
  ∧ (∃ st',
       request_retrieval_body demo_new_client demo_restore_object "b.progress"
         "b.available" demo_files "b" 3 "Standard" 0 demo_locals "k1"
       = Ok st'
       ∧ filesys (now st') = ∅
       ∧ (s3_client st', remote (now st')) = (2, 2)
       ∧ api_log (now st')
         = [NewSession 0; RestoreObject "b" "k1" 3 "Standard"; NewSession 0]).
Proof.
  assert (Hk1 : "k1" ∈ demo_files) by (unfold demo_files; constructor).
  assert (Hk2 : "k2" ∈ demo_files) by (unfold demo_files; do 2 constructor).
  split; [exact Hk1|]. split; [exact Hk2|]. split; [|split].
  - destruct (request_outcomes_classified demo_new_client demo_restore_by_key
                "b.progress" "b.available" demo_files "b" 3 "Standard" 0
                demo_locals "k1" Hk1)
      as [(st' & Hst & Hc & (_ & (Hlog & Hother) & _) & _) _].
    exists st'. split; [exact Hst|]. split; [exact Hc|]. split; [exact Hlog|].
    exact (Hother "b.progress" ltac:(discriminate)).
  - destruct (request_outcomes_classified demo_new_client demo_restore_by_key
                "b.progress" "b.available" demo_files "b" 3 "Standard" 0
                demo_locals "k2" Hk2)
      as [(st' & Hst & _ & (_ & (Hlog & Hother) & _) & _) _].
    exists st'. split; [exact Hst|]. split; [exact Hlog|].
    exact (Hother "b.available" ltac:(discriminate)).
  - destruct (request_outcomes_classified demo_new_client demo_restore_object
                "b.progress" "b.available" demo_files "b" 3 "Standard" 0
                demo_locals "k1" Hk1)
      as [(st' & Hst & _ & (_ & Hfs & Hrefresh & _) & _) _].
    exists st'. split; [exact Hst|]. split; [exact Hfs|].
    exact (Hrefresh eq_refl).
Defined.

(** ** What a status-check worker writes *)

Section worker_files.
Context {Remote Client : Type}.
Variable new_client : nat → Remote → Client * Remote.
Variable head_object :
  Client → string → string → Remote → head_outcome * Remote.
Variables (availability_logger : string).
Variables (files : list string) (bucket_name : string) (chunk_index : nat).

Abbreviation check_body' :=
  (check_files_availability_body new_client head_object availability_logger
     files bucket_name chunk_index).

(** The files a pass of the loop of [check_files_availability] leaves
    as they are: all but the one of its logger. *)
Lemma check_body_other_files (st : @locals Remote Client) f name :
  files ≠ [] → name ≠ availability_logger →
  ∃ st', check_body' st f = Ok st'
         ∧ filesys (now st') !! name = filesys (now st) !! name.
Proof.
  intros Hf Hname. unfold check_files_availability_body.
  destruct (head_object _ _ _ _) as [[headers|e] r].
  - destruct (headers !! _) as [x|]; [destruct (contains _ x)|];
      rewrite report_ok by done; eexists; (split; [done|]); simpl; try done.
    unfold logger_info. by rewrite lookup_insert_ne.
  - repeat case_bool_decide;
      try (unfold refresh_credentials; simpl; destruct (new_client _ _));
      rewrite report_ok by done; eexists; (split; [done|]); done.
Qed.

Lemma check_for_each_other_files l (st : @locals Remote Client) name :
  (l ≠ [] → files ≠ []) → name ≠ availability_logger →
  ∃ st', for_each check_body' st l = Ok st'
         ∧ filesys (now st') !! name = filesys (now st) !! name.
Proof.
  intros Hf Hname. revert st Hf.
  induction l as [|f l IH]; intros st Hf; simpl.
  - by exists st.
  - assert (Hfiles : files ≠ []) by (by apply Hf).
    destruct (check_body_other_files st f name) as (st1 & -> & H1);
      [done | done |]. simpl.
    destruct (IH st1) as (st' & -> & H'); [done|].
    exists st'. split; [done|]. by rewrite H', H1.
Qed.

Lemma check_files_availability_other_files (w : world Remote) name :
  name ≠ availability_logger →
  ∃ w', check_files_availability new_client head_object availability_logger
          files bucket_name chunk_index w = Ok w'
        ∧ filesys w' !! name = filesys w !! name.
Proof.
  intros Hname. unfold check_files_availability, refresh_credentials.
  destruct (new_client _ _) as [s3 r].
  edestruct (check_for_each_other_files files) as (st' & -> & H); [done|done|].
  eexists. split; [done|]. simpl. by rewrite H.
Qed.

Lemma check_files_availability_ok (w : world Remote) :
  ∃ w', check_files_availability new_client head_object availability_logger
          files bucket_name chunk_index w = Ok w'.
Proof.
  destruct (check_files_availability_other_files w
              (String "x" availability_logger)) as (w' & H & _).
  - intros E. apply (f_equal String.length) in E. simpl in E. lia.
  - by exists w'.
Qed.
End worker_files.

(** ** The orchestrators *)

Lemma io_bind_run {A B} (m : io A) (k : A → io B) p :
  (m ≫= k) p
  = match m p with
    | (p', Ok a) => k a p'
    | (p', Raise e) => (p', Raise e)
    end.
Proof. reflexivity. Qed.

(** One step of a run: the outermost bind of the program is unfolded. *)
Ltac io_step :=
  lazymatch goal with
  | |- @mbind io io_bind ?A ?B ?k ?m ?p = _ → _ => rewrite (io_bind_run m k p)
  | |- @mbind io io_bind ?A ?B ?k ?m ?p = _ => rewrite (io_bind_run m k p)
  end.

Lemma skip_entries_run found lines log p :
  skip_entries found lines log p
  = (Process (disk p) (console p ++ skipped_note found lines log) (stdin p),
     Ok (diff lines log)).
Proof.
  unfold skip_entries, skipped_note. destruct log as [|x log]; simpl.
  - rewrite diff_nil_r, app_nil_r. by destruct p.
  - done.
Qed.

Lemma read_log_run logfile p :
  read_log logfile p = (p, Ok (log_of (disk p) logfile)).
Proof.
  unfold read_log, log_of, io_path_exists, io_read_file, path_exists, read_file.
  rewrite io_bind_run. destruct (disk p !! logfile) eqn:E.
  - rewrite bool_decide_eq_true_2 by eauto. by rewrite E.
  - rewrite bool_decide_eq_false_2 by (intros [? ?]; congruence). done.
Qed.

Lemma clamp_min tc len : clamp tc len = Z.min tc (Z.of_nat len).
Proof. unfold clamp. destruct (Z.ltb_spec (Z.of_nat len) tc); lia. Qed.

Lemma main_request_unfold bucket path retain tier tc p :
  main_request_objects_restore bucket path retain tier tc p
  = (io_setup_logger (bucket +:+ ".progress");;
     io_setup_logger (bucket +:+ ".available");;
     progress_log ← read_log (bucket +:+ ".progress");
     availability_log ← read_log (bucket +:+ ".available");
     io_print EmptyLine;;
     lines ← io_read_file path;
     lines ← skip_entries ProgressLogFound lines progress_log;
     lines ← skip_entries AvailabilityLogFound lines availability_log;
     (if length lines =? 0 then io_print NothingToDo;; raise (SystemExit 1)
      else mret ());;
     io_print (WillProcess (length lines));;
     split_by ← lift (split_by (length lines) (clamp tc (length lines)));
     io_print (ThreadsFiles (clamp tc (length lines)) split_by);;
     answer ← input (ConfirmEstimate
                       (inject_Z (Z.of_nat (length lines))
                        / inject_Z (clamp tc (length lines)) / 5 / 60 / 60)%Q);
     (if bool_decide (answer ≠ "y") then raise (SystemExit 1) else mret ());;
     cs ← lift (chunks lines split_by);
     mret (Started (request_threads bucket retain tier cs))) p.
Proof. reflexivity. Qed.

Lemma main_check_unfold bucket path tc p :
  main_check_restore_status bucket path tc p
  = (io_setup_logger ("bucket_" +:+ bucket +:+ ".available");;
     found ← io_path_exists path;
     if negb found then
       io_print (ListNotFound path);; io_print RunGenerateFirst;; mret Returned
     else
       io_print EmptyLine;;
       file_list ← io_read_file path;
       availability_log ← read_log ("bucket_" +:+ bucket +:+ ".available");
       file_list ← skip_entries AvailabilityLogFound file_list availability_log;
       io_print (WillProcess (length file_list));;
       split_by ← lift (split_by (length file_list) tc);
       io_print (ThreadsFiles tc split_by);;
       answer ← input (ConfirmEstimate
                         (inject_Z (Z.of_nat (length file_list))
                          / inject_Z tc / 14 / 60 / 60)%Q);
       (if bool_decide (answer ≠ "y") then raise (SystemExit 1) else mret ());;
       cs ← lift (chunks file_list split_by);
       mret (Started (check_threads bucket cs))) p.
Proof. reflexivity. Qed.

(** The sequential part of the restore-request mode, when it gets as far
    as starting threads. *)
Lemma main_request_started bucket path retain tier tc p p' ths :
  main_request_objects_restore bucket path retain tier tc p
  = (p', Ok (Started ths)) →
  ∃ master s cs,
    let progress_log := log_of (disk p') (bucket +:+ ".progress") in
    let availability_log := log_of (disk p') (bucket +:+ ".available") in
    let lines := diff (diff master progress_log) availability_log in
    disk p' = setup_logger (bucket +:+ ".available")
                (setup_logger (bucket +:+ ".progress") (disk p))
    ∧ read_file (disk p') path = Ok master
    ∧ lines ≠ []
    ∧ split_by (length lines) (Z.min tc (Z.of_nat (length lines))) = Ok s
    ∧ chunks lines s = Ok cs
    ∧ ths = request_threads bucket retain tier cs
    ∧ console p'
      = console p ++ [EmptyLine]
        ++ skipped_note ProgressLogFound master progress_log
        ++ skipped_note AvailabilityLogFound (diff master progress_log)
             availability_log
        ++ [WillProcess (length lines);
            ThreadsFiles (Z.min tc (Z.of_nat (length lines))) s;
            ConfirmEstimate
              (inject_Z (Z.of_nat (length lines))
               / inject_Z (Z.min tc (Z.of_nat (length lines))) / 5 / 60 / 60)%Q].
Proof.
  rewrite main_request_unfold.
  do 2 (io_step; cbn [io_setup_logger disk console stdin]).
  do 2 (io_step; rewrite read_log_run).
  io_step. cbn [io_print disk console stdin].
  io_step. cbn [io_read_file disk console stdin].
  set (fs1 := setup_logger _ _).
  destruct (read_file fs1 path) as [master|e] eqn:Hmaster; [|done].
  do 2 (io_step; rewrite skip_entries_run). cbn [disk console stdin].
  set (lines := diff (diff master _) _).
  io_step.
  destruct (Nat.eqb_spec (length lines) 0) as [Hlen|Hlen]; [done|].
  cbn [mret io_ret].
  io_step. cbn [io_print disk console stdin].
  io_step. cbn [lift]. rewrite clamp_min.
  destruct (split_by _ _) as [s|e] eqn:Hs; [|done].
  io_step. cbn [io_print disk console stdin].
  io_step. unfold input. cbn [disk console stdin].
  destruct (stdin p) as [|answer rest]; [done|].
  io_step.
  case_bool_decide; [done|]. cbn [mret io_ret].
  io_step. cbn [lift].
  destruct (chunks lines s) as [cs|e] eqn:Hcs; [|done].
  intros [= <- <-]. exists master, s, cs. cbn [disk console].
  split; [done|]. split; [done|].
  split; [intros E; apply Hlen; exact (f_equal length E)|].
  split; [done|]. split; [done|]. split; [done|].
  by rewrite <- !app_assoc.
Qed.

(** The restore-request mode leaves early when nothing remains. *)
Lemma main_request_nothing_to_do bucket path retain tier tc p master :
  let fs := setup_logger (bucket +:+ ".available")
              (setup_logger (bucket +:+ ".progress") (disk p)) in
  let progress_log := log_of fs (bucket +:+ ".progress") in
  let availability_log := log_of fs (bucket +:+ ".available") in
  read_file fs path = Ok master →
  diff (diff master progress_log) availability_log = [] →
  main_request_objects_restore bucket path retain tier tc p
  = (Process fs
       (console p ++ [EmptyLine]
        ++ skipped_note ProgressLogFound master progress_log
        ++ skipped_note AvailabilityLogFound (diff master progress_log)
             availability_log
        ++ [NothingToDo])
       (stdin p),
     Raise (SystemExit 1)).
Proof.
  intros fs progress_log availability_log Hmaster Hnone.
  rewrite main_request_unfold.
  do 2 (io_step; cbn [io_setup_logger disk console stdin]).
  do 2 (io_step; rewrite read_log_run).
  io_step. cbn [io_print disk console stdin].
  io_step. cbn [io_read_file disk console stdin].
  fold fs. rewrite Hmaster.
  do 2 (io_step; rewrite skip_entries_run). cbn [disk console stdin].
  fold progress_log availability_log. rewrite Hnone.
  io_step. cbn [length Nat.eqb]. rewrite io_bind_run.
  cbn [io_print raise disk console stdin]. by rewrite <- !app_assoc.
Qed.

(** The sequential part of the status check, when it gets as far as
    starting threads. *)
Lemma main_check_started bucket path tc p p' ths :
  main_check_restore_status bucket path tc p = (p', Ok (Started ths)) →
  ∃ master s cs,
    let availability_log :=
      log_of (disk p') ("bucket_" +:+ bucket +:+ ".available") in
    let file_list := diff master availability_log in
    disk p' = setup_logger ("bucket_" +:+ bucket +:+ ".available") (disk p)
    ∧ read_file (disk p') path = Ok master
    ∧ split_by (length file_list) tc = Ok s
    ∧ chunks file_list s = Ok cs
    ∧ ths = check_threads bucket cs
    ∧ console p'
      = console p ++ [EmptyLine]
        ++ skipped_note AvailabilityLogFound master availability_log
        ++ [WillProcess (length file_list);
            ThreadsFiles tc s;
            ConfirmEstimate
              (inject_Z (Z.of_nat (length file_list)) / inject_Z tc
               / 14 / 60 / 60)%Q].
Proof.
  rewrite main_check_unfold.
  io_step; cbn [io_setup_logger disk console stdin].
  io_step. cbn [io_path_exists disk console stdin].
  set (fs1 := setup_logger _ _).
  destruct (path_exists fs1 path) eqn:Hfound; cbn [negb].
  2: { do 2 (io_step; cbn [io_print disk console stdin]). done. }
  io_step. cbn [io_print disk console stdin].
  io_step. cbn [io_read_file disk console stdin].
  destruct (read_file fs1 path) as [master|e] eqn:Hmaster; [|done].
  io_step; rewrite read_log_run.
  io_step; rewrite skip_entries_run. cbn [disk console stdin].
  set (file_list := diff master _).
  io_step. cbn [io_print disk console stdin].
  io_step. cbn [lift].
  destruct (split_by _ _) as [s|e] eqn:Hs; [|done].
  io_step. cbn [io_print disk console stdin].
  io_step. unfold input. cbn [disk console stdin].
  destruct (stdin p) as [|answer rest]; [done|].
  io_step.
  case_bool_decide; [done|]. cbn [mret io_ret].
  io_step. cbn [lift].
  destruct (chunks file_list s) as [cs|e] eqn:Hcs; [|done].
  intros [= <- <-]. exists master, s, cs. cbn [disk console].
  split; [done|]. split; [done|]. split; [done|]. split; [done|].
  split; [done|]. by rewrite <- !app_assoc.
Qed.

Lemma string_length_app (s t : string) :
  String.length (s +:+ t) = String.length s + String.length t.
Proof. induction s as [|c s IH]; simpl; [done|]. by rewrite IH. Qed.


Lemma split_by_ge_1 len tc s : split_by len tc = Ok s → (1 ≤ s)%Z.
Proof.
  unfold split_by. destruct (tc =? 0)%Z; [done|]. intros [= <-]. lia.
Qed.

Lemma chunks_ok (lst : list string) (n : Z) cs :
  (1 ≤ n)%Z → chunks lst n = Ok cs →
  concat cs = lst ∧ ∀ c, c ∈ cs → c ≠ [].
Proof.
  intros Hn. rewrite chunks_pos by lia. intros [= <-]. split.
  - apply sliced_concat. lia.
  - intros c. apply sliced_nonempty. lia.
Qed.

Lemma start_threads_files target cs :
  (∀ c i, thread_files (target c i) = c) →
  map thread_files (start_threads target cs) = cs.
Proof.
  intros Ht. unfold start_threads. revert target Ht.
  induction cs as [|c cs IH]; intros target Ht; [done|].
  rewrite imap_cons. simpl. rewrite Ht. f_equal. apply IH.
  intros c' i. apply Ht.
Qed.

Lemma request_started_threads bucket path retain tier tc p p' ths :
  main_request_objects_restore bucket path retain tier tc p
  = (p', Ok (Started ths)) →
  (∃ master,
     read_file (disk p') path = Ok master
     ∧ concat (map thread_files ths)
       = diff (diff master (log_of (disk p') (bucket +:+ ".progress")))
              (log_of (disk p') (bucket +:+ ".available")))
  ∧ ∀ th, th ∈ ths →
      thread_files th ≠ []
      ∧ thread_availability_logger th = bucket +:+ ".available".
Proof.
  intros (master & s & cs & _ & Hm & _ & Hs & Hcs & -> & _)%main_request_started.
  apply split_by_ge_1 in Hs.
  destruct (chunks_ok _ _ _ Hs Hcs) as [Hcat Hne].
  unfold request_threads. split.
  - exists master. split; [done|]. by rewrite start_threads_files.
  - unfold start_threads.
    intros th (i & c & -> & Hc)%elem_of_lookup_imap. simpl. split; [|done].
    apply Hne. by eapply list_elem_of_lookup_2.
Qed.

Lemma check_started_threads bucket path tc p p' ths :
  main_check_restore_status bucket path tc p = (p', Ok (Started ths)) →
  (∃ master,
     read_file (disk p') path = Ok master
     ∧ concat (map thread_files ths)
       = diff master (log_of (disk p') ("bucket_" +:+ bucket +:+ ".available")))
  ∧ ∀ th, th ∈ ths →
      thread_files th ≠ []
      ∧ ∃ files chunk_index,
          th = check_files_availability_thread
                 ("bucket_" +:+ bucket +:+ ".available") files bucket chunk_index.
Proof.
  intros (master & s & cs & _ & Hm & Hs & Hcs & -> & _)%main_check_started.
  apply split_by_ge_1 in Hs.
  destruct (chunks_ok _ _ _ Hs Hcs) as [Hcat Hne].
  unfold check_threads. split.
  - exists master. split; [done|]. by rewrite start_threads_files.
  - unfold start_threads.
    intros th (i & c & -> & Hc)%elem_of_lookup_imap. simpl. split; [|by eauto].
    apply Hne. by eapply list_elem_of_lookup_2.
Qed.


(** C9. For every list and every chunk size [n >= 1], [chunks] returns
    and every chunk it yields is non-empty.  The chunk size the
    orchestrators compute is at least 1, so every thread either mode
    starts has a non-empty key list, and no worker run ends in an
    exception: [counter / len(files)] never divides by zero. *)
Theorem chunks_never_empty (lst : list string) (n : Z) :
  (1 ≤ n)%Z →
  (∃ cs, chunks lst n = Ok cs ∧ ∀ c, c ∈ cs → c ≠ [])
  ∧ (∀ len tc s, split_by len tc = Ok s → (1 ≤ s)%Z)
  ∧ (∀ bucket path retain tier tc p p' ths th,
       main_request_objects_restore bucket path retain tier tc p
       = (p', Ok (Started ths)) →
       th ∈ ths → thread_files th ≠ [])
  ∧ (∀ bucket path tc p p' ths th,
       main_check_restore_status bucket path tc p = (p', Ok (Started ths)) →
       th ∈ ths → thread_files th ≠ [])
  ∧ (∀ (Remote Client : Type) (new_client : nat → Remote → Client * Remote)
       restore_object head_object th (w : world Remote),
       ∃ w', run_thread new_client restore_object head_object th w = Ok w').
Proof.
  intros Hn. split; [|split; [|split; [|split]]].
  - exists (sliced lst (Z.to_nat n)). split; [apply chunks_pos; lia|].
    intros c. apply sliced_nonempty. lia.
  - apply split_by_ge_1.
  - intros bucket path retain tier tc p p' ths th
      [_ Hth]%request_started_threads Hin. by apply Hth.
  - intros bucket path tc p p' ths th [_ Hth]%check_started_threads Hin.
    by apply Hth.
  - intros Remote Client new_client restore_object head_object [pl al f b d t i|al f b i] w;
      simpl.
    + destruct (request_retrieval_calls new_client restore_object pl al f b d t i w)
        as (w' & Hw' & _). by exists w'.
    + apply check_files_availability_ok.
Qed.

Lemma chunks_never_empty_witness :
  (1 ≤ 3)%Z
  ∧ ∃ cs, chunks ten_keys 3 = Ok cs ∧ ∀ c, c ∈ cs → c ≠ [].
Proof.
  split; [lia|]. apply (chunks_never_empty ten_keys 3). lia.
Defined.

(** ** The two modes side by side *)

Lemma check_chunk_size_as_clamped (len : nat) (tc : Z) :
  (1 ≤ tc)%Z → 1 ≤ len →
  split_by len tc = split_by len (Z.min tc (Z.of_nat len)).
Proof.
  intros Htc Hlen. unfold split_by.
  destruct (Z.eqb_spec tc 0); [lia|].
  destruct (Z.eqb_spec (Z.min tc (Z.of_nat len)) 0); [lia|].
  destruct (Z.le_gt_cases tc (Z.of_nat len)) as [Hle|Hgt].
  - by rewrite Z.min_l by lia.
  - rewrite Z.min_r by lia. rewrite Z.quot_small by lia.
    rewrite Z.quot_same by lia. done.
Qed.

(** The restore-request mode clamps. *)
Lemma request_mode_clamps bucket path retain tier tc p p' ths :
  main_request_objects_restore bucket path retain tier tc p
  = (p', Ok (Started ths)) →
  ∃ lines s cs,
    concat cs = lines ∧ lines ≠ []
    ∧ ths = request_threads bucket retain tier cs
    ∧ split_by (length lines) (Z.min tc (Z.of_nat (length lines))) = Ok s
    ∧ chunks lines s = Ok cs
    ∧ ThreadsFiles (Z.min tc (Z.of_nat (length lines))) s ∈ console p'.
Proof.
  intros (master & s & cs & _ & _ & Hne & Hs & Hcs & -> & Hout)%main_request_started.
  eexists _, s, cs. split; [|split; [exact Hne|]].
  - eapply chunks_ok; [|exact Hcs]. by eapply split_by_ge_1.
  - split; [done|]. split; [done|]. split; [done|].
    rewrite Hout. set_solver.
Qed.

(** The restore-request mode on two keys, no log and eight threads: two
    threads are started, one per key. *)
Example request_mode_on_two_keys :
  main_request_objects_restore "b" "b.objects" 3 "Standard" 8 two_keys
  = (Process (setup_logger "b.available" (setup_logger "b.progress" (disk two_keys)))
       [EmptyLine; WillProcess 2; ThreadsFiles 2 1; ConfirmEstimate (2 # 36000)]
       [],
     Ok (Started
           [request_retrieval_thread "b.progress" "b.available" ["k1"] "b" 3
              "Standard" 0;
            request_retrieval_thread "b.progress" "b.available" ["k2"] "b" 3
              "Standard" 1])).
Proof. vm_compute. reflexivity. Qed.

(** C3, on the status check.  The only key of the list is already in
    the availability log, so nothing remains; the status check still
    prints its estimate, asks for confirmation and goes on to start its
    (zero) threads, where the restore-request mode leaves with
    "nothing to do" ([main_request_nothing_to_do]). *)
Theorem check_mode_has_no_early_exit :
  diff (log_of (disk all_available) "b.objects")
       (log_of (disk all_available) "bucket_b.available") = []
  ∧ main_check_restore_status "b" "b.objects" 4 all_available
    = (Process (disk all_available)
         [EmptyLine; AvailabilityLogFound 1; WillProcess 0; ThreadsFiles 4 1;
          ConfirmEstimate (0 # 201600)]
         [],
       Ok (Started [])).
Proof. split; vm_compute; reflexivity. Qed.

(** C4, on the status check.  Two keys remain and eight threads are
    configured: the status check keeps [thread_count = 8] for its
    report and its estimate and starts two threads, where the
    restore-request mode clamps to 2 ([request_mode_clamps]).  The
    chunk size is 1 in both ([check_chunk_size_as_clamped]). *)
Theorem check_mode_does_not_clamp :
  main_check_restore_status "b" "b.objects" 8 two_keys
  = (Process (setup_logger "bucket_b.available" (disk two_keys))
       [EmptyLine; WillProcess 2; ThreadsFiles 8 1; ConfirmEstimate (2 # 403200)]
       [],
     Ok (Started
           [check_files_availability_thread "bucket_b.available" ["k1"] "b" 0;
            check_files_availability_thread "bucket_b.available" ["k2"] "b" 1]))
  ∧ console (main_request_objects_restore "b" "b.objects" 3 "Standard" 8 two_keys).1
    = [EmptyLine; WillProcess 2; ThreadsFiles 2 1; ConfirmEstimate (2 # 36000)].
Proof. split; vm_compute; reflexivity. Qed.

(** ** [print_percent_queue] *)

Section progress_facts.
Implicit Types (d q : list (nat * Q)).

Lemma dict_get_set d k v id :
  dict_get (dict_set d k v) id = if k =? id then Some v else dict_get d id.
Proof.
  induction d as [|[k' v'] d IH]; simpl.
  - done.
  - destruct (Nat.eqb_spec k' k) as [->|Hk]; simpl.
    + by destruct (k =? id).
    + rewrite IH. destruct (Nat.eqb_spec k' id) as [->|]; [|done].
      destruct (Nat.eqb_spec k id); [congruence|done].
Qed.

Lemma latest_nil_dict id d q :
  latest id d q
  = match latest id [] q with Some v => Some v | None => dict_get d id end.
Proof.
  induction q as [|[k v] q IH]; simpl; [done|].
  destruct (latest id [] q); [done|]. by destruct (k =? id).
Qed.

Lemma drain_latest d q id : dict_get (drain d q) id = latest id d q.
Proof.
  unfold drain. revert d. induction q as [|[k v] q IH]; intros d; simpl.
  - done.
  - rewrite IH. rewrite latest_nil_dict, dict_get_set.
    destruct (latest id [] q); [done|]. done.
Qed.

Lemma dict_set_keys d k v :
  (dict_set d k v).*1 = if bool_decide (k ∈ d.*1) then d.*1 else d.*1 ++ [k].
Proof.
  induction d as [|[k' v'] d IH]; [done|]. cbn [dict_set].
  destruct (Nat.eqb_spec k' k) as [->|Hk]; rewrite !fmap_cons; cbn [fst].
  - rewrite bool_decide_eq_true_2 by (apply elem_of_cons; by left). done.
  - rewrite IH. rewrite (bool_decide_ext (k ∈ k' :: d.*1) (k ∈ d.*1)).
    + by case_bool_decide.
    + rewrite elem_of_cons. split; [intros [E|H]; [congruence|done] | by right].
Qed.

Lemma dict_set_NoDup d k v : NoDup d.*1 → NoDup (dict_set d k v).*1.
Proof.
  intros Hd. rewrite dict_set_keys. case_bool_decide; [done|].
  apply NoDup_app. split; [done|]. split; [|apply NoDup_singleton].
  intros x Hx [->|[]%not_elem_of_nil]%elem_of_cons. done.
Qed.

Lemma drain_NoDup d q : NoDup d.*1 → NoDup (drain d q).*1.
Proof.
  unfold drain. revert d. induction q as [|[k v] q IH]; intros d Hd; simpl.
  - done.
  - apply IH. by apply dict_set_NoDup.
Qed.

Lemma render_from_cons out tot k v d :
  render_from out tot ((k, v) :: d)
  = render_from (out ++ [(k, (v * 100)%Q)]) (tot + v * 100)%Q d.
Proof. reflexivity. Qed.

Lemma render_from_spec out tot d :
  (render_from out tot d).1 = out ++ breakdown d
  ∧ ((render_from out tot d).2 == tot + sum_Q d.*2 * 100)%Q.
Proof.
  revert out tot. induction d as [|[k v] d IH]; intros out tot.
  - split; [by rewrite app_nil_r|].
    unfold sum_Q, render_from. cbn [foldl snd fmap list_fmap foldr]. ring.
  - rewrite render_from_cons.
    destruct (IH (out ++ [(k, (v * 100)%Q)]) (tot + v * 100)%Q) as [H1 H2].
    split.
    + rewrite H1. by rewrite <- app_assoc.
    + rewrite H2. unfold sum_Q. rewrite fmap_cons.
      cbn [foldr snd]. ring.
Qed.

Lemma render_spec d :
  (render d).1 = breakdown d ∧ ((render d).2 == sum_Q d.*2 * 100)%Q.
Proof.
  change (render d) with (render_from [] 0%Q d).
  destruct (render_from_spec [] 0%Q d) as [H1 H2].
  split; [done|]. rewrite H2. ring.
Qed.

(** C7. [print_percent_queue] empties the queue into the dictionary,
    the newest sample of a worker replacing what was known of it; when
    the dictionary is empty afterwards nothing is printed; otherwise one
    line is printed, with the mean of all known fractions times 100 and
    each worker's fraction times 100.  With the samples (0, 0.5) and
    (1, 1.0) the total printed is 75. *)
Theorem print_percent_queue_renders {Remote : Type} d (w : world Remote) :
  let d' := (print_percent_queue d w).1 in
  let w' := (print_percent_queue d w).2 in
  PERCENT_QUEUE w' = []
  ∧ d' = drain d (PERCENT_QUEUE w)
  ∧ (∀ worker_id, dict_get d' worker_id = latest worker_id d (PERCENT_QUEUE w))
  ∧ (NoDup d.*1 → NoDup d'.*1)
  ∧ (d' = [] → stdout w' = stdout w)
  ∧ (d' ≠ [] →
       ∃ total_percent,
         stdout w' = stdout w ++ [ProgressLine total_percent (breakdown d')]
         ∧ (total_percent == mean d'.*2 * 100)%Q)
  ∧ stdout (print_percent_queue [] half_and_full).2
    = [ProgressLine (300 # 4) [(0, (100 # 2)%Q); (1, 100%Q)]]
  ∧ (300 # 4 == 75)%Q.
Proof.
  cbv zeta. unfold print_percent_queue.
  set (d' := drain d (PERCENT_QUEUE w)).
  destruct (render_spec d') as [Hout Htot].
  destruct (render d') as [out tot]. cbn [fst snd] in Hout, Htot.
  assert (Hcase : (0 <? length d') = false ∧ d' = []
                  ∨ (0 <? length d') = true ∧ d' ≠ []).
  { destruct d'; [by left | by right]. }
  destruct Hcase as [[-> Hd]|[-> Hd]]; cbn [fst snd PERCENT_QUEUE stdout print].
  - split; [done|]. split; [done|]. split; [intros; apply drain_latest|].
    split; [apply drain_NoDup|]. split; [done|]. split; [done|].
    split; [reflexivity | reflexivity].
  - split; [done|]. split; [done|]. split; [intros; apply drain_latest|].
    split; [apply drain_NoDup|]. split; [done|].
    split; [|split; reflexivity].
    intros _. eexists. split; [by rewrite Hout|].
    unfold mean. rewrite Htot. rewrite length_fmap. field.
    replace 0%Q with (inject_Z 0) by done. rewrite inject_Z_injective.
    destruct d'; [done | simpl; lia].
Qed.
End progress_facts.

(** ** [read_file] and the list file *)

Lemma collect_keys objs acc last_count out :
  (foldl collect (acc, last_count, out) objs).1.1 = acc ++ glacier_keys objs.
Proof.
  revert acc last_count out.
  induction objs as [|obj objs IH]; intros acc last_count out.
  - by rewrite app_nil_r.
  - cbn [foldl]. unfold glacier_keys. rewrite filter_cons. unfold collect at 2.
    destruct (decide (StorageClass obj = "GLACIER" ∨ StorageClass obj = "DEEP_ARCHIVE"))
      as [Hc|Hc].
    + assert (bool_decide (StorageClass obj = "GLACIER")
              || bool_decide (StorageClass obj = "DEEP_ARCHIVE") = true) as ->.
      { destruct Hc as [Hc|Hc]; rewrite Hc; [done|]. by rewrite orb_true_r. }
      destruct (_ <=? _); rewrite IH, <- app_assoc; done.
    + assert (bool_decide (StorageClass obj = "GLACIER")
              || bool_decide (StorageClass obj = "DEEP_ARCHIVE") = false) as ->.
      { apply orb_false_intro; apply bool_decide_eq_false_2; tauto. }
      by rewrite IH.
Qed.

(** When the output file does not exist yet, [main_generate_list] asks
    nothing and writes the kept keys, one per line. *)
Lemma main_generate_list_writes pages failure output_filename p :
  path_exists (disk p) output_filename = false →
  ∃ out,
    main_generate_list pages failure output_filename p
    = (Process (write_list output_filename (glacier_keys (concat pages)) (disk p))
         out (stdin p),
       Ok ()).
Proof.
  intros Hnew. unfold main_generate_list.
  rewrite io_bind_run. cbn [io_path_exists]. rewrite Hnew.
  rewrite io_bind_run. cbn [mret io_ret].
  rewrite io_bind_run. cbn [io_print disk console stdin].
  pose proof (collect_keys (concat pages) [] 0 []) as Hkeys.
  destruct (foldl collect ([], 0, []) (concat pages)) as [[keys lc] out].
  cbn [fst] in Hkeys. rewrite app_nil_l in Hkeys. subst keys.
  rewrite io_bind_run. cbn [io_print_all disk console stdin].
  rewrite io_bind_run.
  destruct failure as [e|]; cbn [io_print mret io_ret disk console stdin];
    rewrite io_bind_run; cbn [io_print io_write_list disk console stdin];
    by eexists.
Qed.

Section text_facts.
Implicit Types (s t cur k : string) (c : ascii).

Lemma string_app_cons c s t : String c s +:+ t = String c (s +:+ t).
Proof. reflexivity. Qed.

Lemma string_app_nil_l s : "" +:+ s = s.
Proof. reflexivity. Qed.

Lemma string_app_assoc s t u : (s +:+ t) +:+ u = s +:+ (t +:+ u).
Proof.
  induction s as [|c s IH]; [done|]. rewrite !string_app_cons. by rewrite IH.
Qed.

Lemma is_char_true c d : is_char c d = true ↔ c = d.
Proof. unfold is_char. by rewrite bool_decide_eq_true. Qed.

Lemma has_char_app c s t : has_char c (s +:+ t) = has_char c s || has_char c t.
Proof.
  induction s as [|d s IH]; [done|]. rewrite ?string_app_cons. simpl.
  by rewrite IH, orb_assoc.
Qed.

Lemma written_text_no_CR keys :
  Forall (λ k, has_char CR k = false) keys →
  has_char CR (written_text keys) = false.
Proof.
  induction 1 as [|k keys Hk _ IH]; [done|]. cbn [written_text].
  rewrite has_char_app, Hk, string_app_cons, string_app_nil_l. simpl.
  by rewrite IH.
Qed.

Lemma translate_newlines_no_CR s :
  has_char CR s = false → translate_newlines s = s.
Proof.
  induction s as [|c s IH]; simpl; [done|].
  intros [Hc Hs]%orb_false_elim. rewrite Hc. by rewrite IH.
Qed.

Lemma lines_from_key cur k rest :
  has_char LF k = false →
  lines_from cur (k +:+ String LF rest)
  = (cur +:+ k +:+ String LF "") :: lines_from "" rest.
Proof.
  revert cur. induction k as [|c k IH]; intros cur.
  - intros _. by rewrite string_app_nil_l.
  - simpl. intros [Hc Hk]%orb_false_elim. rewrite ?string_app_cons. simpl.
    rewrite Hc. rewrite IH by done.
    by rewrite !string_app_assoc, string_app_cons, string_app_nil_l.
Qed.

Lemma replace_LF_key k :
  has_char LF k = false → replace_LF (k +:+ String LF "") = k.
Proof.
  induction k as [|c k IH].
  - intros _. by rewrite string_app_nil_l.
  - simpl. intros [Hc Hk]%orb_false_elim. rewrite ?string_app_cons. simpl.
    rewrite Hc. by rewrite IH.
Qed.

Lemma replace_LF_no_LF s : has_char LF (replace_LF s) = false.
Proof.
  induction s as [|c s IH]; simpl; [done|].
  destruct (is_char c LF) eqn:Hc; [done|]. simpl. by rewrite Hc.
Qed.

Lemma lines_of_written_text keys :
  Forall (λ k, has_char LF k = false) keys →
  map replace_LF (lines_from "" (written_text keys)) = keys.
Proof.
  induction 1 as [|k keys Hk _ IH]; [done|]. cbn [written_text].
  rewrite string_app_cons, string_app_nil_l.
  rewrite lines_from_key by done. rewrite string_app_nil_l.
  cbn [map]. rewrite IH. by rewrite replace_LF_key.
Qed.

(** C10, as the code has it.  For every list of keys none of which
    contains a line feed or a carriage return, the file the list
    generation writes (one key per line, each followed by a line feed)
    is read back by [read_file] as the same list in the same order; and
    no line [read_file] returns contains a line feed. *)
Theorem list_file_roundtrip (keys : list string) :
  Forall (λ k, has_char LF k = false ∧ has_char CR k = false) keys →
  (∀ fs output_filename,
     read_file (write_list output_filename keys fs) output_filename = Ok keys)
  ∧ (∀ fs fname lines l,
       read_file fs fname = Ok lines → l ∈ lines → has_char LF l = false).
Proof.
  intros Hkeys. split.
  - intros fs f. unfold read_file, write_list. rewrite lookup_insert_eq.
    unfold file_lines. rewrite translate_newlines_no_CR.
    + rewrite lines_of_written_text; [done|].
      eapply Forall_impl; [exact Hkeys|]. by intros k [? ?].
    + apply written_text_no_CR.
      eapply Forall_impl; [exact Hkeys|]. by intros k [? ?].
  - intros fs fname lines l. unfold read_file.
    destruct (fs !! fname) as [content|]; [|done]. intros [= <-].
    intros (x & -> & _)%list_elem_of_fmap. apply replace_LF_no_LF.
Qed.
End text_facts.

(** The ten keys of [ten_keys] contain neither character. *)
Lemma list_file_roundtrip_witness :
  Forall (λ k, has_char LF k = false ∧ has_char CR k = false) ten_keys
  ∧ read_file (write_list "b.objects" ten_keys ∅) "b.objects" = Ok ten_keys.
Proof.
  assert (H : Forall (λ k, has_char LF k = false ∧ has_char CR k = false) ten_keys).
  { unfold ten_keys. repeat constructor. }
  split; [exact H|]. apply (list_file_roundtrip ten_keys H).
Defined.

(** A key with a carriage return and no line feed is read back as two
    keys: a file opened in text mode ends a line at a carriage return
    too. *)
Lemma list_file_counterexample :
  Forall (λ k, has_char LF k = false) cr_keys
  ∧ read_file (write_list "b.objects" cr_keys ∅) "b.objects" = Ok ["a"; "b"]
  ∧ read_file (write_list "b.objects" cr_keys ∅) "b.objects" ≠ Ok cr_keys.
Proof.
  split; [repeat constructor|]. split; [reflexivity|]. discriminate.
Qed.

(** * Further properties of the script *)

(** ** Reading and the logs *)

Section reading.
Implicit Types (s t cur k : string) (c : ascii).

Lemma has_char_cons c d s : has_char c (String d s) = is_char d c || has_char c s.
Proof. reflexivity. Qed.

(** After the translation of line ends no carriage return is left. *)
Lemma translate_newlines_CR_free s :
  has_char CR (translate_newlines s) = false
  ∧ ∀ c, has_char CR (translate_newlines (String c s)) = false.
Proof.
  induction s as [|d s [IH1 IH2]].
  - split; [done|]. intros c. simpl.
    by destruct (is_char c CR) eqn:E; simpl; rewrite ?E.
  - split; [apply IH2|]. intros c.
    cbn [translate_newlines]. destruct (is_char c CR) eqn:Ec.
    + destruct (is_char d LF) eqn:Ed; rewrite has_char_cons.
      * by rewrite IH1.
      * change (is_char LF CR) with false. apply IH2.
    + rewrite has_char_cons, Ec. apply IH2.
Qed.

Lemma has_char_replace_LF c l :
  has_char c l = false → has_char c (replace_LF l) = false.
Proof.
  induction l as [|d l IH]; [done|]. simpl.
  intros [Hd Hl]%orb_false_elim. destruct (is_char d LF); [by apply IH|].
  simpl. by rewrite Hd, IH.
Qed.

Lemma lines_from_CR_free cur s l :
  has_char CR cur = false → has_char CR s = false →
  l ∈ lines_from cur s → has_char CR l = false.
Proof.
  revert cur. induction s as [|c s IH]; intros cur Hcur Hs; simpl.
  - case_bool_decide; [by intros ?%elem_of_nil|].
    by intros ->%list_elem_of_singleton.
  - simpl in Hs. apply orb_false_elim in Hs as [Hc Hs].
    destruct (is_char c LF) eqn:E.
    + intros [->|Hin]%elem_of_cons.
      * by rewrite has_char_app, Hcur.
      * by apply (IH "").
    + apply IH; [|done]. rewrite has_char_app, Hcur. simpl. by rewrite Hc.
Qed.

Lemma read_file_clean fs fname lines l :
  read_file fs fname = Ok lines → l ∈ lines → clean l.
Proof.
  unfold read_file. destruct (fs !! fname) as [content|]; [|done].
  intros [= <-] (x & -> & Hx)%list_elem_of_fmap. split.
  - apply replace_LF_no_LF.
  - apply has_char_replace_LF. eapply lines_from_CR_free; [| |exact Hx].
    + done.
    + apply translate_newlines_CR_free.
Qed.

Lemma clean_written_text keys :
  Forall clean keys →
  map replace_LF (file_lines (written_text keys)) = keys.
Proof.
  intros Hk. unfold file_lines. rewrite translate_newlines_no_CR.
  - apply lines_of_written_text. eapply Forall_impl; [exact Hk|]. by intros k [? ?].
  - apply written_text_no_CR. eapply Forall_impl; [exact Hk|]. by intros k [? ?].
Qed.

(** X1. Whatever the file holds, the lines [read_file] returns contain
    neither a line feed nor a carriage return, and writing them out
    one per line and reading them again gives the same list. *)
Theorem read_file_normalises fs fname lines :
  read_file fs fname = Ok lines →
  Forall clean lines
  ∧ ∀ fs' output_filename,
      read_file (write_list output_filename lines fs') output_filename = Ok lines.
Proof.
  intros Hread.
  assert (Hclean : Forall clean lines).
  { apply Forall_forall. intros l. by apply (read_file_clean fs fname). }
  split; [done|]. intros fs' out. unfold read_file, write_list.
  rewrite lookup_insert_eq. by rewrite clean_written_text.
Qed.
End reading.

Lemma read_file_normalises_witness :
  read_file mixed_ends "b.objects" = Ok ["a"; "b"; "c"]
  ∧ Forall clean ["a"; "b"; "c"]
  ∧ ∀ fs' output_filename,
      read_file (write_list output_filename ["a"; "b"; "c"] fs') output_filename
      = Ok ["a"; "b"; "c"].
Proof.
  assert (H : read_file mixed_ends "b.objects" = Ok ["a"; "b"; "c"])
    by reflexivity.
  split; [exact H|].
  exact (read_file_normalises mixed_ends "b.objects" ["a"; "b"; "c"] H).
Defined.

Section line_ends.
Implicit Types (s t cur k : string) (c : ascii).

Lemma string_app_nil_r s : s +:+ "" = s.
Proof.
  induction s as [|c s IH]; [done|]. rewrite string_app_cons. by rewrite IH.
Qed.

Lemma replace_LF_id k : has_char LF k = false → replace_LF k = k.
Proof.
  induction k as [|c k IH]; [done|]. simpl.
  intros [Hc Hk]%orb_false_elim. rewrite Hc. by rewrite IH.
Qed.

Lemma lines_from_last cur k :
  has_char LF k = false → cur +:+ k ≠ "" → lines_from cur k = [cur +:+ k].
Proof.
  revert cur. induction k as [|c k IH]; intros cur Hk Hne; simpl.
  - rewrite string_app_nil_r in Hne |- *. by rewrite bool_decide_eq_false_2.
  - simpl in Hk. apply orb_false_elim in Hk as [Hc Hk]. rewrite Hc.
    rewrite IH; [|done|].
    + by rewrite string_app_assoc.
    + rewrite string_app_assoc. simpl. by destruct cur.
Qed.

Lemma lines_from_unterminated keys k :
  Forall (λ k, has_char LF k = false) keys →
  has_char LF k = false → k ≠ "" →
  map replace_LF (lines_from "" (written_text keys +:+ k)) = keys ++ [k].
Proof.
  intros Hkeys Hk Hne. induction Hkeys as [|k' keys Hk' _ IH].
  - simpl. rewrite lines_from_last by done. simpl. by rewrite replace_LF_id.
  - cbn [written_text]. rewrite !string_app_assoc.
    rewrite string_app_cons, string_app_nil_l.
    rewrite lines_from_key by done. rewrite string_app_nil_l.
    cbn [map]. rewrite IH. by rewrite replace_LF_key.
Qed.

Lemma translate_newlines_key k rest :
  has_char CR k = false →
  translate_newlines (k +:+ String CR (String LF rest))
  = k +:+ String LF (translate_newlines rest).
Proof.
  induction k as [|c k IH]; [done|]. simpl.
  intros [Hc Hk]%orb_false_elim. rewrite ?string_app_cons. simpl.
  rewrite Hc. by rewrite IH.
Qed.

Lemma translate_written_crlf keys :
  Forall (λ k, has_char CR k = false) keys →
  translate_newlines (written_crlf keys) = written_text keys.
Proof.
  induction 1 as [|k keys Hk _ IH]; [done|]. cbn [written_crlf written_text].
  rewrite !string_app_cons, string_app_nil_l.
  rewrite translate_newlines_key by done. by rewrite IH.
Qed.

(** X2. A list file whose lines end in carriage return and line feed,
    and a list file whose last line has no line end, are read as the
    keys they list. *)
Theorem read_file_line_ends (keys : list string) :
  Forall clean keys →
  (∀ fs fname,
     fs !! fname = Some (written_crlf keys) → read_file fs fname = Ok keys)
  ∧ (∀ fs fname k,
       clean k → k ≠ "" →
       fs !! fname = Some (written_text keys +:+ k) →
       read_file fs fname = Ok (keys ++ [k])).
Proof.
  intros Hkeys.
  assert (HLF : Forall (λ k, has_char LF k = false) keys).
  { eapply Forall_impl; [exact Hkeys|]. by intros k [? ?]. }
  assert (HCR : Forall (λ k, has_char CR k = false) keys).
  { eapply Forall_impl; [exact Hkeys|]. by intros k [? ?]. }
  split.
  - intros fs fname Hfs. unfold read_file, file_lines. rewrite Hfs.
    rewrite translate_written_crlf by done.
    by rewrite lines_of_written_text.
  - intros fs fname k [Hk1 Hk2] Hne Hfs. unfold read_file, file_lines.
    rewrite Hfs. rewrite translate_newlines_no_CR.
    + by rewrite lines_from_unterminated.
    + rewrite has_char_app, Hk2. by rewrite written_text_no_CR.
Qed.
End line_ends.

Lemma read_file_line_ends_witness :
  Forall clean ["k1"; "k2"]
  ∧ read_file {["b.objects" := written_crlf ["k1"; "k2"]]} "b.objects"
    = Ok ["k1"; "k2"].
Proof.
  assert (H : Forall clean ["k1"; "k2"]) by (repeat constructor).
  split; [exact H|].
  apply (proj1 (read_file_line_ends ["k1"; "k2"] H)).
  apply lookup_singleton_eq.
Defined.

Section substrings.
Implicit Types (s t n h : string) (c : ascii).

Lemma prefix_cons a n b h :
  String.prefix (String a n) (String b h)
  = if ascii_dec a b then String.prefix n h else false.
Proof. reflexivity. Qed.

Lemma prefix_spec n h : String.prefix n h = true ↔ ∃ post, h = n +:+ post.
Proof.
  revert h. induction n as [|a n IH]; intros h.
  - split; [intros _; by exists h | intros _; by destruct h].
  - destruct h as [|b h].
    + split; [intros H; discriminate H|].
      intros [post Hp]. by rewrite string_app_cons in Hp.
    + rewrite prefix_cons. destruct (ascii_dec a b) as [->|Hab].
      * rewrite IH. split; intros [post Hp]; exists post.
        -- rewrite string_app_cons. by rewrite Hp.
        -- rewrite string_app_cons in Hp. by injection Hp.
      * split; [done|]. intros [post Hp].
        rewrite string_app_cons in Hp. injection Hp as Hb _. congruence.
Qed.

(** [contains] is the substring test. *)
Lemma contains_spec n h :
  contains n h = true ↔ ∃ pre post, h = pre +:+ n +:+ post.
Proof.
  induction h as [|b h IH].
  - cbn [contains]. destruct (String.prefix n "") eqn:Hp.
    + split; [|done]. intros _. apply prefix_spec in Hp as [post Hp].
      by exists "", post.
    + split; [done|]. intros (pre & post & Hh).
      destruct pre; [|by rewrite string_app_cons in Hh].
      rewrite string_app_nil_l in Hh.
      assert (String.prefix n "" = true) by (apply prefix_spec; by exists post).
      congruence.
  - cbn [contains]. destruct (String.prefix n (String b h)) eqn:Hp.
    + split; [|done]. intros _. apply prefix_spec in Hp as [post Hp].
      by exists "", post.
    + rewrite IH. split.
      * intros (pre & post & ->). by exists (String b pre), post.
      * intros (pre & post & Hh). destruct pre as [|c pre].
        -- rewrite string_app_nil_l in Hh.
           assert (String.prefix n (String b h) = true)
             by (apply prefix_spec; by exists post).
           congruence.
        -- rewrite string_app_cons in Hh. injection Hh as _ ->.
           by exists pre, post.
Qed.
End substrings.

Section log_files.
Implicit Types (fs : filesystem) (ks : list string).

Lemma written_text_snoc ks k :
  written_text (ks ++ [k]) = written_text ks +:+ k +:+ String LF "".
Proof.
  induction ks as [|k' ks IH]; cbn [app written_text].
  - by rewrite string_app_nil_r.
  - rewrite IH. by rewrite !string_app_assoc.
Qed.

Lemma log_text_logger_info fs logger msg :
  log_text (logger_info logger msg fs) logger
  = log_text fs logger +:+ msg +:+ String LF "".
Proof. unfold log_text, logger_info. by rewrite lookup_insert_eq. Qed.

Lemma log_text_logger_info_ne fs logger msg name :
  name ≠ logger → log_text (logger_info logger msg fs) name = log_text fs name.
Proof.
  intros Hne. unfold log_text, logger_info. by rewrite lookup_insert_ne.
Qed.

Lemma written_text_empty ks : written_text ks = "" → ks = [].
Proof.
  destruct ks as [|k ks]; [done|]. cbn [written_text]. intros H.
  apply (f_equal String.length) in H.
  rewrite !string_length_app in H. simpl in H. lia.
Qed.

(** A log whose text is one clean key per line is read as these keys. *)
Lemma log_of_written fs logfile ks :
  Forall clean ks → log_text fs logfile = written_text ks →
  log_of fs logfile = ks.
Proof.
  intros Hks. unfold log_text, log_of, read_file.
  destruct (fs !! logfile) as [content|]; simpl.
  - intros ->. by apply clean_written_text.
  - intros H. symmetry in H. by apply written_text_empty in H.
Qed.
End log_files.

Section worker_logs.
Context {Remote Client : Type}.
Variable new_client : nat → Remote → Client * Remote.
Variable restore_object :
  Client → string → string → Z → string → Remote → restore_outcome * Remote.
Variable head_object :
  Client → string → string → Remote → head_outcome * Remote.
Variables (progress_logger availability_logger : string).
Variables (files : list string) (bucket_name : string) (retain_days : Z).
Variables (tier : string) (chunk_index : nat).

Abbreviation locals' := (@locals Remote Client).
Abbreviation request_body' :=
  (request_retrieval_body new_client restore_object progress_logger
     availability_logger files bucket_name retain_days tier chunk_index).
Abbreviation check_body'' :=
  (check_files_availability_body new_client head_object availability_logger
     files bucket_name chunk_index).

Lemma head_calls_app l1 l2 :
  head_calls (l1 ++ l2) = head_calls l1 ++ head_calls l2.
Proof. unfold head_calls. apply omap_app. Qed.

Lemma restore_complete_dec (o : head_outcome) :
  restore_complete o
  ↔ match o with
    | HeadResponse headers =>
        match headers !! "x-amz-restore" with
        | Some x => contains ongoing_request_false x = true
        | None => False
        end
    | HeadFails _ => False
    end.
Proof.
  unfold restore_complete. destruct o as [headers|e].
  - destruct (headers !! "x-amz-restore") as [x|] eqn:Hx.
    + rewrite contains_spec. split.
      * intros (h & x' & pre & post & [= <-] & Hx' & Hpre).
        rewrite Hx in Hx'. injection Hx' as <-. by exists pre, post.
      * intros (pre & post & Hpre). by exists headers, x, pre, post.
    + split; [|done].
      intros (h & x' & pre & post & [= <-] & Hx' & _). congruence.
  - split; [|done]. intros (h & x' & pre & post & [=] & _).
Qed.

(** One pass of the loop body of [check_files_availability]. *)
Lemma check_body_classified (st : locals') f :
  files ≠ [] →
  ∃ st',
    check_body'' st f = Ok st'
    ∧ counter st' = counter st + 1
    ∧ match head_object (s3_client st) bucket_name f (remote (now st)) with
      | (o, r) =>
        (restore_complete o →
           filesys (now st') = logger_info availability_logger f (filesys (now st)))
        ∧ (¬ restore_complete o → filesys (now st') = filesys (now st))
        ∧ (token_expired o →
             (s3_client st', remote (now st')) = new_client chunk_index r
             ∧ api_log (now st')
               = api_log (now st)
                 ++ [HeadObject bucket_name f; NewSession chunk_index])
        ∧ (¬ token_expired o →
             s3_client st' = s3_client st ∧ remote (now st') = r
             ∧ api_log (now st') = api_log (now st) ++ [HeadObject bucket_name f])
      end.
Proof.
  intros Hf. unfold check_files_availability_body.
  destruct (head_object _ _ _ _) as [o r].
  pose proof (restore_complete_dec o) as Hdec.
  destruct o as [headers|e].
  - assert (Hexp : ¬ token_expired (HeadResponse headers))
      by (intros (e & [=] & _)).
    destruct (headers !! "x-amz-restore") as [x|];
      [destruct (contains _ x)|];
      rewrite report_ok by done; eexists; (split; [done|]); (split; [done|]);
      cbn [now s3_client filesys info remote api_log called].
    + split; [done|]. split; [intros Hn; exfalso; apply Hn; by apply Hdec|].
      split; [intros He; by destruct Hexp|]. done.
    + split; [intros Hc%Hdec; discriminate Hc|]. split; [done|].
      split; [intros He; by destruct Hexp|]. done.
    + split; [intros Hc%Hdec; destruct Hc|]. split; [done|].
      split; [intros He; by destruct Hexp|]. done.
  - assert (Hnot : ¬ restore_complete (HeadFails e)) by (by intros ?%Hdec).
    destruct (decide (Code e = "NoSuchKey")) as [Hno|Hno];
      [rewrite bool_decide_eq_true_2 by done
      |rewrite bool_decide_eq_false_2 by done;
       destruct (decide (Code e = "ExpiredToken")) as [Hex|Hex];
       [rewrite bool_decide_eq_true_2 by done
       |rewrite bool_decide_eq_false_2 by done]].
    + assert (¬ token_expired (HeadFails e)).
      { intros (e' & [= <-] & He). rewrite Hno in He. discriminate He. }
      rewrite report_ok by done. eexists. split; [done|]. split; [done|].
      cbn [now s3_client]. done.
    + assert (token_expired (HeadFails e)) by (by exists e).
      unfold refresh_credentials. cbn [remote called].
      destruct (new_client chunk_index r) as [s3 r'] eqn:Hnew.
      rewrite report_ok by done. eexists. split; [done|]. split; [done|].
      cbn [now s3_client]. split; [done|]. split; [done|].
      split; [|done]. intros _. split; [done|]. simpl.
      by rewrite <- app_assoc.
    + assert (¬ token_expired (HeadFails e)).
      { intros (e' & [= <-] & He). done. }
      rewrite report_ok by done. eexists. split; [done|]. split; [done|].
      cbn [now s3_client]. done.
Qed.

Lemma check_body_calls (st : locals') f :
  files ≠ [] →
  ∃ st', check_body'' st f = Ok st'
         ∧ head_calls (api_log (now st')) = head_calls (api_log (now st)) ++ [f].
Proof.
  intros Hf. destruct (check_body_classified st f Hf) as (st' & Hst & _ & H).
  exists st'. split; [done|].
  destruct (head_object _ _ _ _) as [o r].
  destruct H as (_ & _ & Hr & Hn).
  assert (Hd : token_expired o ∨ ¬ token_expired o).
  { destruct o as [h|e]; [right; by intros (e & [=] & _)|].
    destruct (decide (Code e = "ExpiredToken")); [left; by exists e|right].
    intros (e' & [= <-] & He). done. }
  destruct Hd as [Hc|Hc].
  - destruct (Hr Hc) as [_ ->]. by rewrite head_calls_app.
  - destruct (Hn Hc) as (_ & _ & ->). by rewrite head_calls_app.
Qed.

Lemma check_for_each_calls l (st : locals') :
  (l ≠ [] → files ≠ []) →
  ∃ st', for_each check_body'' st l = Ok st'
         ∧ head_calls (api_log (now st')) = head_calls (api_log (now st)) ++ l.
Proof.
  revert st. induction l as [|f l IH]; intros st Hf; simpl.
  - exists st. by rewrite app_nil_r.
  - assert (Hfiles : files ≠ []) by (by apply Hf).
    destruct (check_body_calls st f Hfiles) as (st1 & -> & H1). simpl.
    destruct (IH st1) as (st' & -> & H'); [done|]. exists st'. split; [done|].
    by rewrite H', H1, <- app_assoc.
Qed.

(** X3. For every key [f] of the chunk, the pass of the loop of
    [check_files_availability] for [f] does not raise; it appends [f]
    to the availability log exactly when the answer has an
    [x-amz-restore] header in which [ongoing-request="false"] occurs,
    the file of the log then holding its old text followed by [f] and
    a line end and every other file being as it was, and leaves the
    files as they are otherwise; it replaces the client
    exactly when the answer is an [ExpiredToken] error; it calls
    [head_object] once for [f] and goes on with the next key.  Over the
    whole chunk the worker returns and has called [head_object] once
    for each key, in order. *)
Theorem check_outcomes_classified (st : locals') f :
  f ∈ files →
  (∃ st',
     check_body'' st f = Ok st'
     ∧ counter st' = counter st + 1
     ∧ match head_object (s3_client st) bucket_name f (remote (now st)) with
       | (o, r) =>
         (restore_complete o →
            filesys (now st')
            = logger_info availability_logger f (filesys (now st)))
         ∧ (¬ restore_complete o → filesys (now st') = filesys (now st))
         ∧ (token_expired o →
              (s3_client st', remote (now st')) = new_client chunk_index r
              ∧ api_log (now st')
                = api_log (now st)
                  ++ [HeadObject bucket_name f; NewSession chunk_index])
         ∧ (¬ token_expired o →
              s3_client st' = s3_client st ∧ remote (now st') = r
              ∧ api_log (now st')
                = api_log (now st) ++ [HeadObject bucket_name f])
         ∧ (restore_complete o →
              filesys (now st') !! availability_logger
              = Some (log_text (filesys (now st)) availability_logger
                      +:+ f +:+ String LF "")
              ∧ ∀ name, name ≠ availability_logger →
                  filesys (now st') !! name = filesys (now st) !! name)
       end
     ∧ ∀ rest, for_each check_body'' st (f :: rest)
               = for_each check_body'' st' rest)
  ∧ (∀ w, ∃ w',
       check_files_availability new_client head_object availability_logger
         files bucket_name chunk_index w = Ok w'
       ∧ head_calls (api_log w') = head_calls (api_log w) ++ files).
Proof.
  intros Hin.
  assert (Hf : files ≠ []).
  { intros E. rewrite E in Hin. by apply not_elem_of_nil in Hin. }
  split.
  - destruct (check_body_classified st f Hf) as (st' & Hst & Hc & Hcases).
    exists st'. split; [done|]. split; [done|]. split.
    + destruct (head_object _ _ _ _) as [o r].
      destruct Hcases as (Hyes & Hno & Hexp & Hnot).
      split; [done|]. split; [done|]. split; [done|]. split; [done|].
      intros Hc'. rewrite (Hyes Hc'). apply logger_info_effect.
    + intros rest. simpl. by rewrite Hst.
  - intros w. unfold check_files_availability, refresh_credentials.
    destruct (new_client _ _) as [s3 r].
    edestruct (check_for_each_calls files) as (st' & -> & H); [done|].
    eexists. split; [done|]. simpl. rewrite H. simpl.
    by rewrite head_calls_app, app_nil_r.
Qed.
End worker_logs.

Section worker_appends.
Context {Remote Client : Type}.
Variable new_client : nat → Remote → Client * Remote.
Variable restore_object :
  Client → string → string → Z → string → Remote → restore_outcome * Remote.
Variable head_object :
  Client → string → string → Remote → head_outcome * Remote.

Lemma appended_to_refl loggers fs : appended_to loggers fs fs.
Proof.
  split; [done|]. intros name. exists "". by rewrite string_app_nil_r.
Qed.

Lemma appended_to_trans loggers fs1 fs2 fs3 :
  appended_to loggers fs1 fs2 → appended_to loggers fs2 fs3 →
  appended_to loggers fs1 fs3.
Proof.
  intros [H1 H1'] [H2 H2']. split.
  - intros name Hn. by rewrite H2, H1.
  - intros name. destruct (H1' name) as [s1 E1]. destruct (H2' name) as [s2 E2].
    exists (s1 +:+ s2). by rewrite E2, E1, string_app_assoc.
Qed.

Lemma appended_to_logger_info loggers logger msg fs :
  logger ∈ loggers → appended_to loggers fs (logger_info logger msg fs).
Proof.
  intros Hin. split.
  - intros name Hn. unfold logger_info. rewrite lookup_insert_ne; [done|].
    intros ->. done.
  - intros name. destruct (decide (name = logger)) as [->|Hne].
    + eexists. apply log_text_logger_info.
    + exists "". rewrite log_text_logger_info_ne by done.
      by rewrite string_app_nil_r.
Qed.

Lemma request_body_appends pl al files b d t i (st : @locals Remote Client) f :
  files ≠ [] →
  ∃ st', request_retrieval_body new_client restore_object pl al files b d t i st f
         = Ok st'
         ∧ appended_to [pl; al] (filesys (now st)) (filesys (now st')).
Proof.
  intros Hf.
  destruct (request_body_classified new_client restore_object pl al files b d t
              i st f Hf) as (st' & Hst & _ & H).
  exists st'. split; [done|].
  destruct (restore_object _ _ _ _ _ _) as [o r]. destruct H as [-> _].
  destruct (classify o); simpl;
    first [apply appended_to_refl
          | apply appended_to_logger_info; set_solver].
Qed.

Lemma check_body_appends al files b i (st : @locals Remote Client) f :
  files ≠ [] →
  ∃ st', check_files_availability_body new_client head_object al files b i st f
         = Ok st'
         ∧ appended_to [al] (filesys (now st)) (filesys (now st')).
Proof.
  intros Hf.
  destruct (check_body_classified new_client head_object al files b i st f Hf)
    as (st' & Hst & _ & H).
  exists st'. split; [done|].
  destruct (head_object _ _ _ _) as [o r]. destruct H as (Hyes & Hno & _).
  assert (Hd : restore_complete o ∨ ¬ restore_complete o).
  { rewrite restore_complete_dec. destruct o as [h|e]; [|right; by intros []].
    destruct (h !! "x-amz-restore") as [x|]; [|right; by intros []].
    destruct (contains _ x); [by left | right; by intros ?]. }
  destruct Hd as [Hc|Hc].
  - rewrite (Hyes Hc). apply appended_to_logger_info. set_solver.
  - rewrite (Hno Hc). apply appended_to_refl.
Qed.

Lemma for_each_appends loggers (files : list string)
    (body : @locals Remote Client → string → result (@locals Remote Client)) :
  (files ≠ [] →
   ∀ st f, ∃ st', body st f = Ok st'
                  ∧ appended_to loggers (filesys (now st)) (filesys (now st'))) →
  ∀ l st, (l ≠ [] → files ≠ []) →
    ∃ st', for_each body st l = Ok st'
           ∧ appended_to loggers (filesys (now st)) (filesys (now st')).
Proof.
  intros Hbody. induction l as [|f l IH]; intros st Hl; simpl.
  - exists st. split; [done|]. apply appended_to_refl.
  - assert (Hfiles : files ≠ []) by (by apply Hl).
    destruct (Hbody Hfiles st f) as (st1 & -> & H1). simpl.
    destruct (IH st1) as (st' & -> & H'); [done|].
    exists st'. split; [done|]. by eapply appended_to_trans.
Qed.

(** X4. A worker only appends to its logs: whatever the object store
    answers, a run of [request_retrieval] returns with every file but
    its two logs unchanged and with the old text of every file as the
    beginning of its new text; a run of [check_files_availability]
    does so with its one log. *)
Theorem workers_only_append (w : world Remote) :
  (∀ pl al files b d t i,
     ∃ w', request_retrieval new_client restore_object pl al files b d t i w
           = Ok w'
           ∧ appended_to [pl; al] (filesys w) (filesys w'))
  ∧ (∀ al files b i,
       ∃ w', check_files_availability new_client head_object al files b i w
             = Ok w'
             ∧ appended_to [al] (filesys w) (filesys w')).
Proof.
  split.
  - intros pl al files b d t i. unfold request_retrieval, refresh_credentials.
    destruct (new_client _ _) as [s3 r].
    edestruct (for_each_appends [pl; al] files) as (st' & -> & H).
    + intros Hf st f. by apply request_body_appends.
    + done.
    + eexists. split; [done|]. exact H.
  - intros al files b i. unfold check_files_availability, refresh_credentials.
    destruct (new_client _ _) as [s3 r].
    edestruct (for_each_appends [al] files) as (st' & -> & H).
    + intros Hf st f. by apply check_body_appends.
    + done.
    + eexists. split; [done|]. exact H.
Qed.
End worker_appends.

Section resuming.
Context {Remote Client : Type}.
Variable new_client : nat → Remote → Client * Remote.
Variable restore_object :
  Client → string → string → Z → string → Remote → restore_outcome * Remote.
Variables (progress_logger availability_logger : string).
Variables (files : list string) (bucket_name : string) (retain_days : Z).
Variables (tier : string) (chunk_index : nat).
Hypothesis loggers_differ : progress_logger ≠ availability_logger.

Abbreviation request_body'' :=
  (request_retrieval_body new_client restore_object progress_logger
     availability_logger files bucket_name retain_days tier chunk_index).
Abbreviation logged f :=
  (always_logged restore_object bucket_name retain_days tier f).
Abbreviation unlogged f :=
  (never_logged restore_object bucket_name retain_days tier f).

Lemma for_each_logs l (st : @locals Remote Client) P A :
  (l ≠ [] → files ≠ []) →
  log_text (filesys (now st)) progress_logger = written_text P →
  log_text (filesys (now st)) availability_logger = written_text A →
  ∃ st' P' A',
    for_each request_body'' st l = Ok st'
    ∧ log_text (filesys (now st')) progress_logger = written_text (P ++ P')
    ∧ log_text (filesys (now st')) availability_logger = written_text (A ++ A')
    ∧ (∀ f, f ∈ P' ++ A' → f ∈ l)
    ∧ (∀ f, f ∈ l → logged f → f ∈ P' ++ A')
    ∧ (∀ f, unlogged f → f ∉ P' ++ A').
Proof.
  revert st P A. induction l as [|f l IH]; intros st P A Hl HP HA.
  - exists st, [], []. rewrite !app_nil_r. split; [done|].
    split; [done|]. split; [done|]. split; [done|].
    split; [by intros f ?%elem_of_nil|]. by intros f _ ?%elem_of_nil.
  - assert (Hfiles : files ≠ []) by (by apply Hl).
    destruct (request_body_classified new_client restore_object progress_logger
                availability_logger files bucket_name retain_days tier
                chunk_index st f Hfiles) as (st1 & Hst1 & _ & H).
    destruct (restore_object (s3_client st) bucket_name f retain_days tier
                (remote (now st))) as [o r] eqn:Ho.
    destruct H as [Hfs _].
    assert (Hclass : ∀ b, logged_class (classify o) = b →
              (b = true → ¬ unlogged f) ∧ (b = false → ¬ logged f)).
    { intros b Hb. split; intros -> Hall;
        specialize (Hall (s3_client st) (remote (now st)));
        rewrite Ho in Hall; simpl in Hall; congruence. }
    cbn [for_each]. rewrite Hst1. cbn [mbind result_bind].
    destruct (classify o) eqn:Hc; cbn [log_after] in Hfs.
    + (* to the availability log *)
      destruct (IH st1 P (A ++ [f])) as (st' & P' & A' & Hrun & HP' & HA' & Hin & Hall & Hnone).
      * done.
      * rewrite Hfs, log_text_logger_info_ne by done. done.
      * rewrite Hfs, log_text_logger_info, HA. by rewrite written_text_snoc.
      * exists st', P', (f :: A'). split; [done|]. split; [done|].
        split; [by rewrite HA', <- app_assoc|].
        destruct (Hclass true eq_refl) as [Hnot _].
        split; [|split].
        -- intros f' [H1|[->|H2]%elem_of_cons]%elem_of_app.
           ++ apply elem_of_cons. right. apply Hin. apply elem_of_app. by left.
           ++ apply elem_of_cons. by left.
           ++ apply elem_of_cons. right. apply Hin. apply elem_of_app. by right.
        -- intros f' [->|Hf']%elem_of_cons Hlog.
           ++ apply elem_of_app. right. apply elem_of_cons. by left.
           ++ apply elem_of_app.
              pose proof (Hall f' Hf' Hlog) as [?|?]%elem_of_app; [by left|].
              right. apply elem_of_cons. by right.
        -- intros f' Hun [H1|[->|H2]%elem_of_cons]%elem_of_app.
           ++ apply (Hnone f' Hun). apply elem_of_app. by left.
           ++ by apply Hnot.
           ++ apply (Hnone f' Hun). apply elem_of_app. by right.
    + (* to the requested log *)
      destruct (IH st1 (P ++ [f]) A) as (st' & P' & A' & Hrun & HP' & HA' & Hin & Hall & Hnone).
      * done.
      * rewrite Hfs, log_text_logger_info, HP. by rewrite written_text_snoc.
      * rewrite Hfs, log_text_logger_info_ne by done. done.
      * exists st', (f :: P'), A'. split; [done|].
        split; [by rewrite HP', <- app_assoc|]. split; [done|].
        destruct (Hclass true eq_refl) as [Hnot _].
        split; [|split].
        -- intros f' [[->|H1]%elem_of_cons|H2]%elem_of_app.
           ++ apply elem_of_cons. by left.
           ++ apply elem_of_cons. right. apply Hin. apply elem_of_app. by left.
           ++ apply elem_of_cons. right. apply Hin. apply elem_of_app. by right.
        -- intros f' [->|Hf']%elem_of_cons Hlog.
           ++ apply elem_of_app. left. apply elem_of_cons. by left.
           ++ apply elem_of_app.
              pose proof (Hall f' Hf' Hlog) as [?|?]%elem_of_app; [|by right].
              left. apply elem_of_cons. by right.
        -- intros f' Hun [[->|H1]%elem_of_cons|H2]%elem_of_app.
           ++ by apply Hnot.
           ++ apply (Hnone f' Hun). apply elem_of_app. by left.
           ++ apply (Hnone f' Hun). apply elem_of_app. by right.
    + (* no log write *)
      destruct (IH st1 P A) as (st' & P' & A' & Hrun & HP' & HA' & Hin & Hall & Hnone);
        [done | by rewrite Hfs | by rewrite Hfs |].
      exists st', P', A'. split; [done|]. split; [done|]. split; [done|].
      destruct (Hclass false eq_refl) as [_ Hnot].
      split; [|split; [|done]].
      -- intros f' Hf'. apply elem_of_cons. right. by apply Hin.
      -- intros f' [->|Hf']%elem_of_cons Hlog; [by destruct Hnot|]. by apply Hall.
    + (* the client is replaced *)
      destruct (IH st1 P A) as (st' & P' & A' & Hrun & HP' & HA' & Hin & Hall & Hnone);
        [done | by rewrite Hfs | by rewrite Hfs |].
      exists st', P', A'. split; [done|]. split; [done|]. split; [done|].
      destruct (Hclass false eq_refl) as [_ Hnot].
      split; [|split; [|done]].
      -- intros f' Hf'. apply elem_of_cons. right. by apply Hin.
      -- intros f' [->|Hf']%elem_of_cons Hlog; [by destruct Hnot|]. by apply Hall.
    + (* the error is printed *)
      destruct (IH st1 P A) as (st' & P' & A' & Hrun & HP' & HA' & Hin & Hall & Hnone);
        [done | by rewrite Hfs | by rewrite Hfs |].
      exists st', P', A'. split; [done|]. split; [done|]. split; [done|].
      destruct (Hclass false eq_refl) as [_ Hnot].
      split; [|split; [|done]].
      -- intros f' Hf'. apply elem_of_cons. right. by apply Hin.
      -- intros f' [->|Hf']%elem_of_cons Hlog; [by destruct Hnot|]. by apply Hall.
Qed.

(** X5. Resuming.  When the two logs hold one clean key per line and
    the keys of the chunk are clean, a run of [request_retrieval]
    returns with both logs read back as their old entries followed by
    new ones; the new entries are keys of the chunk; a key for which
    the store always answers with a logged outcome (status 200 or 202,
    or RestoreAlreadyInProgress) is among them, a key for which it
    never does is not.  So if every answer is a logged outcome, taking
    the entries of the two logs out of the chunk leaves nothing. *)
Theorem request_retrieval_resumes (w : world Remote) P A :
  Forall clean files → Forall clean P → Forall clean A →
  log_text (filesys w) progress_logger = written_text P →
  log_text (filesys w) availability_logger = written_text A →
  ∃ w' P' A',
    request_retrieval new_client restore_object progress_logger
      availability_logger files bucket_name retain_days tier chunk_index w
    = Ok w'
    ∧ log_of (filesys w') progress_logger = P ++ P'
    ∧ log_of (filesys w') availability_logger = A ++ A'
    ∧ (∀ f, f ∈ P' ++ A' → f ∈ files)
    ∧ (∀ f, f ∈ files → logged f → f ∈ P' ++ A')
    ∧ (∀ f, unlogged f → f ∉ P' ++ A')
    ∧ ((∀ f, logged f) →
         diff (diff files (log_of (filesys w') progress_logger))
              (log_of (filesys w') availability_logger) = []).
Proof.
  intros Hfiles HPc HAc HP HA.
  unfold request_retrieval, refresh_credentials.
  destruct (new_client _ _) as [s3 r].
  edestruct (for_each_logs files) as (st' & P' & A' & -> & HP' & HA' & Hin & Hall & Hnone);
    [done | exact HP | exact HA |].
  assert (Hnew : Forall clean (P' ++ A')).
  { apply Forall_forall. intros f Hf.
    eapply Forall_forall; [exact Hfiles|]. by apply Hin. }
  apply Forall_app in Hnew as [HP'c HA'c].
  assert (HlogP : log_of (filesys (now st')) progress_logger = P ++ P').
  { apply log_of_written; [by apply Forall_app|done]. }
  assert (HlogA : log_of (filesys (now st')) availability_logger = A ++ A').
  { apply log_of_written; [by apply Forall_app|done]. }
  exists (now st'), P', A'. cbn [mbind result_bind].
  split; [done|]. split; [done|]. split; [done|]. split; [done|].
  split; [done|]. split; [done|].
  intros Hevery. rewrite HlogP, HlogA.
  assert (Hgen : ∀ K : list string, K ⊆ files →
            diff (diff K (P ++ P')) (A ++ A') = []).
  { induction K as [|k K IHK]; intros HK; [done|].
    assert (Hk : k ∈ P' ++ A').
    { apply Hall; [|done]. apply HK. apply elem_of_cons. by left. }
    assert (HK' : K ⊆ files).
    { intros x Hx. apply HK. apply elem_of_cons. by right. }
    rewrite !diff_refines in *. unfold diff_spec in *.
    destruct (decide (k ∈ P ++ P')) as [HkP|HkP].
    - rewrite (filter_cons_False _ k) by (intros Hn; by apply Hn).
      by apply IHK.
    - rewrite (filter_cons_True _ k) by done.
      rewrite filter_cons_False; [by apply IHK|].
      intros Hn. apply Hn. apply elem_of_app in Hk as [Hk|Hk].
      + exfalso. apply HkP. apply elem_of_app. by right.
      + apply elem_of_app. by right. }
  by apply Hgen.
Qed.
End resuming.

(** The first key of [demo_files] at the store whose objects are all
    restored: the key goes to the availability log. *)
Lemma check_outcomes_classified_witness :
  "k1" ∈ demo_files
  ∧ ∃ st',
      check_files_availability_body demo_new_client demo_head_restored
        "bucket_b.available" demo_files "b" 0 demo_locals "k1"
      = Ok st'
      ∧ counter st' = 0 + 1
      ∧ filesys (now st') = logger_info "bucket_b.available" "k1" ∅
      ∧ filesys (now st') !! "bucket_b.available" = Some ("k1" +:+ String LF "").
Proof.
  assert (Hin : "k1" ∈ demo_files) by (unfold demo_files; constructor).
  assert (Hdone : restore_complete
                    (HeadResponse {["x-amz-restore" := restored_header]})).
  { exists {["x-amz-restore" := restored_header]}, restored_header, "",
      ", expiry-date=soon".
    split; [reflexivity|]. split; [reflexivity|]. reflexivity. }
  split; [exact Hin|].
  destruct (check_outcomes_classified demo_new_client demo_head_restored
              "bucket_b.available" demo_files "b" 0 demo_locals "k1" Hin)
    as [(st' & Hst & Hc & (Hyes & _ & _ & _ & Htext) & _) _].
  exists st'. split; [exact Hst|]. split; [exact Hc|].
  split; [exact (Hyes Hdone)|]. exact (proj1 (Htext Hdone)).
Defined.

(** The two keys of [demo_files] at the store that accepts every
    request, with no log yet. *)
Lemma request_retrieval_resumes_witness :
  "b.progress" ≠ "b.available"
  ∧ Forall clean demo_files
  ∧ ∃ w' P' A',
      request_retrieval demo_new_client demo_restore_accepted "b.progress"
        "b.available" demo_files "b" 3 "Standard" 0 demo_world
      = Ok w'
      ∧ log_of (filesys w') "b.progress" = [] ++ P'
      ∧ log_of (filesys w') "b.available" = [] ++ A'
      ∧ (∀ f, f ∈ demo_files →
           always_logged demo_restore_accepted "b" 3 "Standard" f →
           f ∈ P' ++ A').
Proof.
  assert (Hne : "b.progress" ≠ "b.available") by discriminate.
  assert (Hclean : Forall clean demo_files) by (repeat constructor).
  split; [exact Hne|]. split; [exact Hclean|].
  destruct (request_retrieval_resumes demo_new_client demo_restore_accepted
              "b.progress" "b.available" demo_files "b" 3 "Standard" 0 Hne
              demo_world [] [] Hclean (Forall_nil_2 _) (Forall_nil_2 _)
              eq_refl eq_refl)
    as (w' & P' & A' & Hrun & HP & HA & _ & Hall & _).
  exists w', P', A'. split; [exact Hrun|]. split; [exact HP|].
  split; [exact HA|]. exact Hall.
Defined.

(** ** More on [diff] and [chunks] *)

Section diff_more.
Implicit Types L E : list string.

Lemma diff_spec_app L E1 E2 :
  diff_spec (diff_spec L E1) E2 = diff_spec L (E1 ++ E2).
Proof.
  unfold diff_spec. rewrite list_filter_filter. apply list_filter_iff.
  intros x. rewrite elem_of_app. tauto.
Qed.

Lemma diff_length_split L E :
  length (diff L E) + length (filter (λ key, key ∈ E) L) = length L.
Proof.
  rewrite diff_refines. unfold diff_spec.
  induction L as [|a L IH]; [done|].
  rewrite !filter_cons. destruct (decide (a ∉ E)) as [Ha|Ha].
  - rewrite decide_False by done. simpl. lia.
  - rewrite decide_True by (by apply dec_stable). simpl. lia.
Qed.

(** X6. Taking out two logs one after the other is taking out their
    entries together, in either order; taking the same log out twice
    changes nothing more; and the number of entries a pass skips, the
    number the orchestrators print, is the number of lines that occur
    in the log, so it is never negative. *)
Theorem diff_composes L E1 E2 :
  diff (diff L E1) E2 = diff L (E1 ++ E2)
  ∧ diff (diff L E1) E2 = diff (diff L E2) E1
  ∧ diff (diff L E1) E1 = diff L E1
  ∧ len_diff (length L) (diff L E1)
    = Z.of_nat (length (filter (λ key, key ∈ E1) L))
  ∧ (0 ≤ len_diff (length L) (diff L E1))%Z.
Proof.
  rewrite !diff_refines.
  split; [apply diff_spec_app|]. split; [|split].
  - rewrite !diff_spec_app. unfold diff_spec. apply list_filter_iff.
    intros x. rewrite !elem_of_app. tauto.
  - rewrite diff_spec_app. unfold diff_spec. apply list_filter_iff.
    intros x. rewrite elem_of_app. tauto.
  - rewrite <- !diff_refines. pose proof (diff_length_split L E1).
    unfold len_diff. lia.
Qed.
End diff_more.

Section chunks_more.
Context {A : Type}.
Implicit Types (lst c : list A) (n : Z).

Lemma sliced_locates lst m j :
  0 < m → j < length lst →
  ∃ c, sliced lst m !! (j / m) = Some c ∧ c !! (j mod m) = lst !! j.
Proof.
  intros Hm Hj.
  pose proof (Nat.div_mod_eq j m) as Hdm.
  pose proof (Nat.mod_upper_bound j m ltac:(lia)) as Hr.
  rewrite sliced_lookup by done.
  rewrite decide_True by nia. eexists. split; [done|].
  rewrite lookup_take_lt by done. rewrite lookup_drop. f_equal. lia.
Qed.

(** X7. With a chunk size [n >= 1], element number [j] of the list is
    element number [j mod n] of chunk number [j div n]: every element
    is in one chunk, at its place, and the chunks hold nothing else. *)
Theorem chunks_locate lst n :
  (1 ≤ n)%Z →
  ∃ cs,
    chunks lst n = Ok cs
    ∧ (∀ j, j < length lst →
         ∃ c, cs !! (j / Z.to_nat n) = Some c
              ∧ c !! (j mod Z.to_nat n) = lst !! j)
    ∧ (∀ i c k x, cs !! i = Some c → c !! k = Some x →
         k < Z.to_nat n ∧ lst !! (i * Z.to_nat n + k) = Some x).
Proof.
  intros Hn. exists (sliced lst (Z.to_nat n)).
  split; [apply chunks_pos; lia|]. split.
  - intros j Hj. apply sliced_locates; lia.
  - intros i c k x. rewrite sliced_lookup by lia.
    destruct (decide (i * Z.to_nat n < length lst)); [|done].
    intros [= <-] Hx.
    assert (Hk : k < Z.to_nat n).
    { apply lookup_lt_Some in Hx. rewrite length_take in Hx. lia. }
    split; [done|]. rewrite lookup_take_lt in Hx by done.
    by rewrite lookup_drop in Hx.
Qed.

(** X8. The edges of [chunks]: a chunk size of 0 raises [ValueError]
    and a negative one yields no chunk, whatever the list; the empty
    list yields no chunk for any other size; and a non-empty list no
    longer than the chunk size is yielded whole, as the one chunk. *)
Theorem chunks_edges lst :
  chunks lst 0 = Raise ValueError
  ∧ (∀ n, (n < 0)%Z → chunks lst n = Ok [])
  ∧ (∀ n, n ≠ 0%Z → chunks ([] : list A) n = Ok [])
  ∧ (∀ n, lst ≠ [] → (Z.of_nat (length lst) ≤ n)%Z → chunks lst n = Ok [lst]).
Proof.
  split; [done|]. split; [|split].
  - intros n Hn. unfold chunks, range0.
    destruct (Z.eqb_spec n 0); [lia|]. by destruct (Z.ltb_spec n 0); [|lia].
  - intros n Hn. unfold chunks, range0.
    destruct (Z.eqb_spec n 0); [done|]. by destruct (n <? 0)%Z.
  - intros n Hne Hlen.
    assert (Hpos : 0 < length lst) by (destruct lst; [done | simpl; lia]).
    rewrite chunks_pos by lia. f_equal. apply list_eq. intros i.
    rewrite sliced_lookup by lia. destruct i as [|i]; simpl.
    + rewrite decide_True by lia. by rewrite drop_0, take_ge by lia.
    + rewrite decide_False by nia. done.
Qed.
End chunks_more.

Lemma chunks_locate_witness :
  (1 ≤ 3)%Z
  ∧ ∃ cs,
      chunks ten_keys 3 = Ok cs
      ∧ (∀ j, j < length ten_keys →
           ∃ c, cs !! (j / Z.to_nat 3) = Some c
                ∧ c !! (j mod Z.to_nat 3) = ten_keys !! j).
Proof.
  assert (H : (1 ≤ 3)%Z) by lia.
  split; [exact H|].
  destruct (chunks_locate ten_keys 3 H) as (cs & Hcs & Hloc & _).
  exists cs. split; [exact Hcs | exact Hloc].
Defined.

(** X9. When the worker count [N] divides the number of keys, the
    orchestrator's chunking gives exactly [N] chunks of [len / N] keys
    each. *)
Theorem chunking_balanced (L : list string) (N : Z) :
  L ≠ [] → (1 ≤ N)%Z → (Z.of_nat (length L) mod N = 0)%Z →
  ∃ s cs,
    split_by (length L) N = Ok s ∧ chunks L s = Ok cs
    ∧ s = (Z.of_nat (length L) / N)%Z
    ∧ Z.of_nat (length cs) = N
    ∧ ∀ c, c ∈ cs → Z.of_nat (length c) = s.
Proof.
  intros HL HN Hmod.
  assert (Hlen : 0 < length L) by (destruct L; [done | simpl; lia]).
  pose proof (Z.div_mod (Z.of_nat (length L)) N ltac:(lia)) as Hdm.
  rewrite Hmod, Z.add_0_r in Hdm.
  assert (Hq : (1 ≤ Z.of_nat (length L) / N)%Z) by nia.
  destruct (split_by_pos (length L) N) as [Hs _]; [lia|].
  rewrite Z.max_l in Hs by lia.
  set (s := (Z.of_nat (length L) / N)%Z) in *.
  exists s, (sliced L (Z.to_nat s)).
  split; [done|]. split; [apply chunks_pos; lia|]. split; [done|].
  assert (Hcount : length (sliced L (Z.to_nat s)) = Z.to_nat N).
  { rewrite sliced_length by lia.
    assert (∀ k, k < ceil_div (length L) (Z.to_nat s) ↔ k < Z.to_nat N) as Hk.
    { intros k. rewrite ceil_div_lt by lia. nia. }
    destruct (Nat.lt_trichotomy (ceil_div (length L) (Z.to_nat s)) (Z.to_nat N))
      as [H|[H|H]]; [|done|]; apply Hk in H; lia. }
  split; [lia|].
  intros c [i Hi]%list_elem_of_lookup.
  pose proof (lookup_lt_Some _ _ _ Hi) as Hlt. rewrite Hcount in Hlt.
  rewrite sliced_lookup in Hi by lia.
  destruct (decide (i * Z.to_nat s < length L)); [|done].
  injection Hi as <-. rewrite length_take, length_drop. nia.
Qed.

Lemma chunking_balanced_witness :
  ["k0"; "k1"; "k2"; "k3"; "k4"; "k5"] ≠ []
  ∧ (1 ≤ 3)%Z
  ∧ ∃ s cs,
      split_by 6 3 = Ok s
      ∧ chunks ["k0"; "k1"; "k2"; "k3"; "k4"; "k5"] s = Ok cs
      ∧ s = 2%Z
      ∧ Z.of_nat (length cs) = 3%Z
      ∧ ∀ c, c ∈ cs → Z.of_nat (length c) = s.
Proof.
  assert (H1 : ["k0"; "k1"; "k2"; "k3"; "k4"; "k5"] ≠ ([] : list string))
    by discriminate.
  assert (H2 : (1 ≤ 3)%Z) by lia.
  split; [exact H1|]. split; [exact H2|].
  exact (chunking_balanced ["k0"; "k1"; "k2"; "k3"; "k4"; "k5"] 3 H1 H2 eq_refl).
Defined.

(** ** The orchestrators, the progress line and the entry point *)

Section orchestrator_outcomes.
Variables (bucket path : string) (tc : Z) (p : process).

Lemma path_exists_read_file fs fname :
  path_exists fs fname = true ↔ ∃ lines, read_file fs fname = Ok lines.
Proof.
  unfold path_exists, read_file. rewrite bool_decide_eq_true.
  destruct (fs !! fname) as [content|].
  - split; [by eexists | by eexists].
  - split; [by intros [? ?] | by intros [? ?]].
Qed.

Lemma split_by_nonzero len N :
  N ≠ 0%Z →
  ∃ s, split_by len N = Ok s ∧ (1 ≤ s)%Z
       ∧ s = Z.max (Z.quot (Z.of_nat len) N) 1.
Proof.
  intros HN. unfold split_by. destruct (Z.eqb_spec N 0); [done|].
  eexists. split; [done|]. split; [lia|done].
Qed.

(** The status check, from the point where the list has been read. *)
Lemma main_check_run master :
  let logfile := "bucket_" +:+ bucket +:+ ".available" in
  let fs := setup_logger logfile (disk p) in
  let file_list := diff master (log_of fs logfile) in
  let out :=
    console p ++ [EmptyLine]
    ++ skipped_note AvailabilityLogFound master (log_of fs logfile)
    ++ [WillProcess (length file_list)] in
  read_file fs path = Ok master →
  main_check_restore_status bucket path tc p
  = match split_by (length file_list) tc with
    | Raise e => (Process fs out (stdin p), Raise e)
    | Ok s =>
        after_prompt fs
          (out ++ [ThreadsFiles tc s;
                   ConfirmEstimate
                     (inject_Z (Z.of_nat (length file_list)) / inject_Z tc
                      / 14 / 60 / 60)%Q])
          (stdin p)
          (check_threads bucket (sliced file_list (Z.to_nat s)))
    end.
Proof.
  intros logfile fs file_list out Hmaster.
  assert (Hfound : path_exists fs path = true).
  { apply path_exists_read_file. by eexists. }
  rewrite main_check_unfold.
  io_step; cbn [io_setup_logger disk console stdin].
  io_step. cbn [io_path_exists disk console stdin].
  fold logfile. fold fs. rewrite Hfound. cbn [negb].
  io_step. cbn [io_print disk console stdin].
  io_step. cbn [io_read_file disk console stdin]. rewrite Hmaster.
  io_step; rewrite read_log_run.
  io_step; rewrite skip_entries_run. cbn [disk console stdin].
  fold file_list.
  io_step. cbn [io_print disk console stdin].
  io_step. cbn [lift].
  destruct (split_by (length file_list) tc) as [s|e] eqn:Hs.
  2: { unfold out. by rewrite <- !app_assoc. }
  pose proof (split_by_ge_1 _ _ _ Hs) as Hs1.
  io_step. cbn [io_print disk console stdin].
  io_step. unfold input, after_prompt. cbn [disk console stdin].
  unfold out. rewrite <- !app_assoc. cbn [app].
  destruct (stdin p) as [|answer rest]; [done|].
  io_step.
  destruct (decide (answer = "y")) as [->|Hne].
  - rewrite bool_decide_eq_false_2 by (intros H; by apply H).
    rewrite bool_decide_eq_true_2 by done. cbn [mret io_ret].
    io_step. cbn [lift]. by rewrite chunks_pos by lia.
  - rewrite bool_decide_eq_true_2 by done.
    by rewrite bool_decide_eq_false_2 by done.
Qed.

(** X10. Every way the status check can go up to the start of its
    threads.  Its log is opened first, which creates it when it is
    missing and leaves every other file alone.  Without the object
    list two lines are printed and the function returns, nothing
    being asked.  With the list, a thread count of 0 raises
    [ZeroDivisionError] before anything is asked; otherwise the
    confirmation is asked once: without a line to read [input]
    raises, any answer but [y] exits with status 1, and on [y] the
    chunks of what remains are handed to the threads, [chunks] never
    raising here. *)
Theorem check_status_outcomes :
  let logfile := "bucket_" +:+ bucket +:+ ".available" in
  let fs := setup_logger logfile (disk p) in
  let run := main_check_restore_status bucket path tc p in
  disk run.1 = fs
  ∧ (path_exists fs path = false →
       run = (Process fs (console p ++ [ListNotFound path; RunGenerateFirst])
                (stdin p), Ok Returned))
  ∧ (∀ master, read_file fs path = Ok master →
       let file_list := diff master (log_of fs logfile) in
       let out :=
         console p ++ [EmptyLine]
         ++ skipped_note AvailabilityLogFound master (log_of fs logfile)
         ++ [WillProcess (length file_list)] in
       (tc = 0%Z →
          run = (Process fs out (stdin p), Raise ZeroDivisionError))
       ∧ (tc ≠ 0%Z →
            ∃ s,
              split_by (length file_list) tc = Ok s
              ∧ run
                = after_prompt fs
                    (out ++ [ThreadsFiles tc s;
                             ConfirmEstimate
                               (inject_Z (Z.of_nat (length file_list))
                                / inject_Z tc / 14 / 60 / 60)%Q])
                    (stdin p)
                    (check_threads bucket (sliced file_list (Z.to_nat s))))).
Proof.
  intros logfile fs run.
  assert (Hmissing : path_exists fs path = false →
            run = (Process fs (console p ++ [ListNotFound path; RunGenerateFirst])
                     (stdin p), Ok Returned)).
  { intros Hnone. unfold run. rewrite main_check_unfold.
    io_step; cbn [io_setup_logger disk console stdin].
    io_step. cbn [io_path_exists disk console stdin].
    fold logfile. fold fs. rewrite Hnone. cbn [negb].
    do 2 (io_step; cbn [io_print disk console stdin]).
    by rewrite <- app_assoc. }
  split; [|split; [done|]].
  - destruct (path_exists fs path) eqn:Hfound.
    + apply path_exists_read_file in Hfound as [master Hmaster].
      unfold run. rewrite (main_check_run master Hmaster). fold logfile. fold fs.
      destruct (split_by _ _) as [s|e]; [|done].
      unfold after_prompt. by destruct (stdin p).
    + by rewrite Hmissing.
  - intros master Hmaster file_list out. unfold run.
    rewrite (main_check_run master Hmaster). fold logfile. fold fs.
    fold file_list. fold out. split.
    + intros ->. done.
    + intros Htc.
      destruct (split_by_nonzero (length file_list) tc Htc) as (s & Hs & _).
      rewrite Hs. by exists s.
Qed.
End orchestrator_outcomes.

Section request_outcomes.
Variables (bucket path : string) (retain : Z) (tier : string).
Variables (tc : Z) (p : process).

(** The restore-request mode, from the point where the list has been
    read and something remains to be requested. *)
Lemma main_request_run master :
  let fs := setup_logger (bucket +:+ ".available")
              (setup_logger (bucket +:+ ".progress") (disk p)) in
  let progress_log := log_of fs (bucket +:+ ".progress") in
  let availability_log := log_of fs (bucket +:+ ".available") in
  let lines := diff (diff master progress_log) availability_log in
  let out :=
    console p ++ [EmptyLine]
    ++ skipped_note ProgressLogFound master progress_log
    ++ skipped_note AvailabilityLogFound (diff master progress_log)
         availability_log
    ++ [WillProcess (length lines)] in
  read_file fs path = Ok master → lines ≠ [] →
  main_request_objects_restore bucket path retain tier tc p
  = match split_by (length lines) (clamp tc (length lines)) with
    | Raise e => (Process fs out (stdin p), Raise e)
    | Ok s =>
        after_prompt fs
          (out ++ [ThreadsFiles (clamp tc (length lines)) s;
                   ConfirmEstimate
                     (inject_Z (Z.of_nat (length lines))
                      / inject_Z (clamp tc (length lines)) / 5 / 60 / 60)%Q])
          (stdin p)
          (request_threads bucket retain tier (sliced lines (Z.to_nat s)))
    end.
Proof.
  intros fs progress_log availability_log lines out Hmaster Hlines.
  rewrite main_request_unfold.
  do 2 (io_step; cbn [io_setup_logger disk console stdin]).
  do 2 (io_step; rewrite read_log_run).
  io_step. cbn [io_print disk console stdin].
  io_step. cbn [io_read_file disk console stdin].
  fold fs. rewrite Hmaster.
  do 2 (io_step; rewrite skip_entries_run). cbn [disk console stdin].
  fold progress_log availability_log. fold lines.
  io_step.
  destruct (Nat.eqb_spec (length lines) 0) as [Hlen|Hlen].
  { by destruct lines. }
  cbn [mret io_ret].
  io_step. cbn [io_print disk console stdin].
  io_step. cbn [lift].
  destruct (split_by (length lines) (clamp tc (length lines))) as [s|e] eqn:Hs.
  2: { unfold out. by rewrite <- !app_assoc. }
  pose proof (split_by_ge_1 _ _ _ Hs) as Hs1.
  io_step. cbn [io_print disk console stdin].
  io_step. unfold input, after_prompt. cbn [disk console stdin].
  unfold out. rewrite <- !app_assoc. cbn [app].
  destruct (stdin p) as [|answer rest]; [done|].
  io_step.
  destruct (decide (answer = "y")) as [->|Hne].
  - rewrite bool_decide_eq_false_2 by (intros H; by apply H).
    rewrite bool_decide_eq_true_2 by done. cbn [mret io_ret].
    io_step. cbn [lift]. by rewrite chunks_pos by lia.
  - rewrite bool_decide_eq_true_2 by done.
    by rewrite bool_decide_eq_false_2 by done.
Qed.

Lemma main_request_no_list :
  let fs := setup_logger (bucket +:+ ".available")
              (setup_logger (bucket +:+ ".progress") (disk p)) in
  path_exists fs path = false →
  main_request_objects_restore bucket path retain tier tc p
  = (Process fs (console p ++ [EmptyLine]) (stdin p), Raise FileNotFoundError).
Proof.
  intros fs Hnone.
  assert (Hread : read_file fs path = Raise FileNotFoundError).
  { unfold read_file. unfold path_exists in Hnone.
    apply bool_decide_eq_false in Hnone.
    destruct (fs !! path); [|done]. destruct Hnone. by eexists. }
  rewrite main_request_unfold.
  do 2 (io_step; cbn [io_setup_logger disk console stdin]).
  do 2 (io_step; rewrite read_log_run).
  io_step. cbn [io_print disk console stdin].
  io_step. cbn [io_read_file disk console stdin].
  fold fs. by rewrite Hread.
Qed.

(** X11. Every way the restore-request mode can go up to the start of
    its threads.  Its two logs are opened first, which creates those
    that are missing and leaves every other file alone.  Without the
    object list [read_file] raises [FileNotFoundError] after the
    empty line, where the status check returns with a notice.  With
    the list: when no key remains the function exits with status 1,
    nothing being asked; when keys remain, a thread count of 0 raises
    [ZeroDivisionError] before anything is asked, and otherwise the
    confirmation is asked once: without a line to read [input]
    raises, any answer but [y] exits with status 1, and on [y] the
    chunks of what remains are handed to the threads, [chunks] never
    raising here. *)
Theorem request_restore_outcomes :
  let fs := setup_logger (bucket +:+ ".available")
              (setup_logger (bucket +:+ ".progress") (disk p)) in
  let run := main_request_objects_restore bucket path retain tier tc p in
  disk run.1 = fs
  ∧ (path_exists fs path = false →
       run = (Process fs (console p ++ [EmptyLine]) (stdin p),
              Raise FileNotFoundError))
  ∧ (∀ master, read_file fs path = Ok master →
       let progress_log := log_of fs (bucket +:+ ".progress") in
       let availability_log := log_of fs (bucket +:+ ".available") in
       let lines := diff (diff master progress_log) availability_log in
       let skipped :=
         console p ++ [EmptyLine]
         ++ skipped_note ProgressLogFound master progress_log
         ++ skipped_note AvailabilityLogFound (diff master progress_log)
              availability_log in
       let out := skipped ++ [WillProcess (length lines)] in
       (lines = [] →
          run = (Process fs (skipped ++ [NothingToDo]) (stdin p),
                 Raise (SystemExit 1)))
       ∧ (lines ≠ [] → tc = 0%Z →
            run = (Process fs out (stdin p), Raise ZeroDivisionError))
       ∧ (lines ≠ [] → tc ≠ 0%Z →
            ∃ s,
              split_by (length lines) (clamp tc (length lines)) = Ok s
              ∧ run
                = after_prompt fs
                    (out ++ [ThreadsFiles (clamp tc (length lines)) s;
                             ConfirmEstimate
                               (inject_Z (Z.of_nat (length lines))
                                / inject_Z (clamp tc (length lines))
                                / 5 / 60 / 60)%Q])
                    (stdin p)
                    (request_threads bucket retain tier
                       (sliced lines (Z.to_nat s))))).
Proof.
  intros fs run.
  assert (Hcases : ∀ master, read_file fs path = Ok master →
    let progress_log := log_of fs (bucket +:+ ".progress") in
    let availability_log := log_of fs (bucket +:+ ".available") in
    let lines := diff (diff master progress_log) availability_log in
    let skipped :=
      console p ++ [EmptyLine]
      ++ skipped_note ProgressLogFound master progress_log
      ++ skipped_note AvailabilityLogFound (diff master progress_log)
           availability_log in
    let out := skipped ++ [WillProcess (length lines)] in
    (lines = [] →
       run = (Process fs (skipped ++ [NothingToDo]) (stdin p),
              Raise (SystemExit 1)))
    ∧ (lines ≠ [] → tc = 0%Z →
         run = (Process fs out (stdin p), Raise ZeroDivisionError))
    ∧ (lines ≠ [] → tc ≠ 0%Z →
         ∃ s,
           split_by (length lines) (clamp tc (length lines)) = Ok s
           ∧ run
             = after_prompt fs
                 (out ++ [ThreadsFiles (clamp tc (length lines)) s;
                          ConfirmEstimate
                            (inject_Z (Z.of_nat (length lines))
                             / inject_Z (clamp tc (length lines))
                             / 5 / 60 / 60)%Q])
                 (stdin p)
                 (request_threads bucket retain tier
                    (sliced lines (Z.to_nat s))))).
  { intros master Hmaster progress_log availability_log lines skipped out.
    split; [|split].
    - intros Hnone. unfold run.
      rewrite (main_request_nothing_to_do bucket path retain tier tc p master
                 Hmaster Hnone).
      unfold skipped. by rewrite <- !app_assoc.
    - intros Hlines Hzero. unfold run.
      rewrite (main_request_run master Hmaster Hlines).
      fold fs progress_log availability_log. fold lines.
      assert (clamp tc (length lines) = 0%Z) as ->.
      { unfold clamp. rewrite Hzero.
        destruct (Z.ltb_spec (Z.of_nat (length lines)) 0); lia. }
      unfold out, skipped. cbn [split_by Z.eqb]. by rewrite <- !app_assoc.
    - intros Hlines Htc. unfold run.
      rewrite (main_request_run master Hmaster Hlines).
      fold fs progress_log availability_log. fold lines.
      assert (Hc : clamp tc (length lines) ≠ 0%Z).
      { unfold clamp. destruct lines; [done|].
        destruct (Z.ltb_spec (Z.of_nat (length (s :: lines))) tc);
          simpl; lia. }
      destruct (split_by_nonzero (length lines) _ Hc) as (s & Hs & _).
      rewrite Hs. exists s. split; [done|].
      unfold out, skipped. by rewrite <- !app_assoc. }
  split; [|split; [apply main_request_no_list|done]].
  destruct (path_exists fs path) eqn:Hfound.
  - apply path_exists_read_file in Hfound as [master Hmaster].
    destruct (Hcases master Hmaster) as (Hnone & Hzero & Hrun).
    destruct (diff (diff master _) _) as [|l ls] eqn:Hl.
    + by rewrite Hnone.
    + destruct (decide (tc = 0%Z)) as [Htc|Htc].
      * by rewrite Hzero.
      * destruct Hrun as (s & _ & ->); [done|done|].
        unfold after_prompt. by destruct (stdin p).
  - unfold run. by rewrite main_request_no_list.
Qed.
End request_outcomes.

Section started_threads.
Implicit Types (cs : list (list string)) (ths : list thread).

Lemma start_threads_lookup target cs i th :
  start_threads target cs !! i = Some th →
  ∃ c, cs !! i = Some c ∧ th = target c i.
Proof.
  unfold start_threads. rewrite list_lookup_imap.
  destruct (cs !! i) as [c|]; [|done]. intros [= <-]. by exists c.
Qed.

Lemma start_threads_length target cs :
  length (start_threads target cs) = length cs.
Proof. unfold start_threads. apply length_imap. Qed.

Lemma ceil_div_1 len : ceil_div len 1 = len.
Proof. unfold ceil_div. rewrite Nat.div_1_r. lia. Qed.

Lemma split_by_negative len N s :
  (N < 0)%Z → split_by len N = Ok s → s = 1%Z.
Proof.
  intros HN. unfold split_by. destruct (Z.eqb_spec N 0); [lia|].
  intros [= <-].
  assert (Z.quot (Z.of_nat len) N ≤ 0)%Z; [|lia].
  replace N with (- - N)%Z by lia. rewrite Z.quot_opp_r by lia.
  pose proof (Z.quot_pos (Z.of_nat len) (- N) ltac:(lia) ltac:(lia)). lia.
Qed.

(** With a thread count [N >= 1] there are at most [2N - 1] chunks,
    however [N] compares to the number of keys. *)
Lemma chunk_count_le len N s :
  (1 ≤ N)%Z → split_by len N = Ok s →
  (Z.of_nat (ceil_div len (Z.to_nat s)) ≤ 2 * N - 1)%Z.
Proof.
  intros HN Hs. destruct (split_by_pos len N) as [Hs' Hn]; [lia|].
  rewrite Hs in Hs'. injection Hs' as ->. rewrite Hn.
  destruct (decide (Z.to_nat N ≤ len)) as [Hle|Hgt].
  - pose proof (chunk_count_bounds len (Z.to_nat N) ltac:(lia)). lia.
  - rewrite Nat.div_small by lia. rewrite Nat.max_r by lia.
    rewrite ceil_div_1. lia.
Qed.

(** X12. When either orchestrator starts its threads, the answer read
    was [y] and no other line was consumed; thread number [i] of the
    list was started with [chunk_index = i] and a non-empty chunk;
    with a thread count [N >= 1] at most [2N - 1] threads are
    started; and with a negative thread count the chunk size is 1, so
    every thread gets exactly one key. *)
Theorem started_threads_numbered bucket path retain tier tc p p' ths :
  main_request_objects_restore bucket path retain tier tc p
  = (p', Ok (Started ths))
  ∨ main_check_restore_status bucket path tc p = (p', Ok (Started ths)) →
  stdin p = "y" :: stdin p'
  ∧ (∀ i th, ths !! i = Some th →
       thread_chunk_index th = i ∧ thread_files th ≠ [])
  ∧ ((1 ≤ tc)%Z → (Z.of_nat (length ths) ≤ 2 * tc - 1)%Z)
  ∧ ((tc < 0)%Z → ∀ th, th ∈ ths → length (thread_files th) = 1).
Proof.
  intros [Hrun|Hrun].
  - pose proof Hrun as
      (master & s & cs & Hdisk & Hm & Hne & Hs & Hcs & -> & _)%main_request_started.
    pose proof (split_by_ge_1 _ _ _ Hs) as Hs1.
    rewrite chunks_pos in Hcs by lia. injection Hcs as <-.
    set (lines := diff (diff master _) _) in *.
    assert (Hlen : 0 < length lines) by (destruct lines; [done | simpl; lia]).
    split; [|split; [|split]].
    + rewrite Hdisk in Hm.
      rewrite (main_request_run bucket path retain tier tc p master Hm) in Hrun.
      2: { by rewrite <- Hdisk. }
      destruct (split_by _ _) as [s'|e]; [|by injection Hrun].
      unfold after_prompt in Hrun. destruct (stdin p) as [|a rest]; [by injection Hrun|].
      case_bool_decide; [|by injection Hrun]. subst a.
      injection Hrun as <- _. done.
    + unfold request_threads.
      intros i th (c & Hc & ->)%start_threads_lookup. simpl. split; [done|].
      eapply sliced_nonempty; [|by eapply list_elem_of_lookup_2]. lia.
    + intros Htc. unfold request_threads.
      rewrite start_threads_length, sliced_length by lia.
      assert (HN : (1 ≤ Z.min tc (Z.of_nat (length lines)))%Z) by lia.
      pose proof (chunk_count_le _ _ _ HN Hs). lia.
    + intros Htc th [i Hi]%list_elem_of_lookup. unfold request_threads in Hi.
      apply start_threads_lookup in Hi as (c & Hc & ->). simpl.
      rewrite Z.min_l in Hs by lia.
      apply split_by_negative in Hs as ->; [|done].
      apply sliced_chunk_length in Hc as [Hc _]; lia.
  - pose proof Hrun as
      (master & s & cs & Hdisk & Hm & Hs & Hcs & -> & _)%main_check_started.
    pose proof (split_by_ge_1 _ _ _ Hs) as Hs1.
    rewrite chunks_pos in Hcs by lia. injection Hcs as <-.
    set (file_list := diff master _) in *.
    split; [|split; [|split]].
    + rewrite Hdisk in Hm.
      rewrite (main_check_run bucket path tc p master Hm) in Hrun.
      destruct (split_by _ _) as [s'|e]; [|by injection Hrun].
      unfold after_prompt in Hrun. destruct (stdin p) as [|a rest]; [by injection Hrun|].
      case_bool_decide; [|by injection Hrun]. subst a.
      injection Hrun as <- _. done.
    + unfold check_threads.
      intros i th (c & Hc & ->)%start_threads_lookup. simpl. split; [done|].
      eapply sliced_nonempty; [|by eapply list_elem_of_lookup_2]. lia.
    + intros Htc. unfold check_threads.
      rewrite start_threads_length, sliced_length by lia.
      by apply chunk_count_le.
    + intros Htc th [i Hi]%list_elem_of_lookup. unfold check_threads in Hi.
      apply start_threads_lookup in Hi as (c & Hc & ->). simpl.
      apply split_by_negative in Hs as ->; [|done].
      apply sliced_chunk_length in Hc as [Hc _]; lia.
Qed.
End started_threads.

Lemma started_threads_numbered_witness :
  main_check_restore_status "b" "b.objects" 8 two_keys
  = (Process (setup_logger "bucket_b.available" (disk two_keys))
       [EmptyLine; WillProcess 2; ThreadsFiles 8 1; ConfirmEstimate (2 # 403200)]
       [],
     Ok (Started
           [check_files_availability_thread "bucket_b.available" ["k1"] "b" 0;
            check_files_availability_thread "bucket_b.available" ["k2"] "b" 1]))
  ∧ stdin two_keys = ["y"]
  ∧ (Z.of_nat 2 ≤ 2 * 8 - 1)%Z.
Proof.
  assert (H : main_check_restore_status "b" "b.objects" 8 two_keys
    = (Process (setup_logger "bucket_b.available" (disk two_keys))
         [EmptyLine; WillProcess 2; ThreadsFiles 8 1; ConfirmEstimate (2 # 403200)]
         [],
       Ok (Started
             [check_files_availability_thread "bucket_b.available" ["k1"] "b" 0;
              check_files_availability_thread "bucket_b.available" ["k2"] "b" 1])))
    by (vm_compute; reflexivity).
  split; [exact H|].
  destruct (started_threads_numbered "b" "b.objects" 3 "Standard" 8 two_keys _ _
              (or_intror H)) as (Hin & _ & Hcount & _).
  split; [exact Hin|]. apply Hcount. lia.
Defined.

Section progress_bounds.
Context {Remote : Type}.
Implicit Types (d q : list (nat * Q)) (w : world Remote).

Lemma dict_set_elem d k v x : x ∈ dict_set d k v → x ∈ d ∨ x = (k, v).
Proof.
  induction d as [|[k' v'] d IH]; cbn [dict_set].
  - intros ->%list_elem_of_singleton. by right.
  - destruct (k' =? k).
    + intros [->|H]%elem_of_cons; [by right|]. left. apply elem_of_cons. by right.
    + intros [->|H]%elem_of_cons; [left; apply elem_of_cons; by left|].
      destruct (IH H) as [?|?]; [|by right]. left. apply elem_of_cons. by right.
Qed.

Lemma drain_elem d q x : x ∈ drain d q → x ∈ d ∨ x ∈ q.
Proof.
  unfold drain. revert d. induction q as [|[k v] q IH]; intros d; cbn [foldl].
  - by left.
  - intros H. apply IH in H as [H|H].
    + apply dict_set_elem in H as [H|H]; [by left|].
      right. apply elem_of_cons. by left.
    + right. apply elem_of_cons. by right.
Qed.

Lemma inject_Z_S (n : nat) :
  (inject_Z (Z.of_nat (S n)) == 1 + inject_Z (Z.of_nat n))%Q.
Proof. rewrite Nat2Z.inj_succ, <- Z.add_1_l, inject_Z_plus. reflexivity. Qed.

Lemma sum_Q_bounds (l : list Q) :
  Forall (λ v, (0 <= v <= 1)%Q) l →
  (0 <= sum_Q l <= inject_Z (Z.of_nat (length l)))%Q.
Proof.
  induction 1 as [|v l [Hv0 Hv1] _ [IH0 IH1]].
  - cbn. split; apply Qle_refl.
  - cbn [sum_Q foldr length]. fold (sum_Q l). rewrite inject_Z_S. split; lra.
Qed.

Lemma sum_Q_ones (l : list Q) :
  Forall (λ v, (v == 1)%Q) l →
  (sum_Q l == inject_Z (Z.of_nat (length l)))%Q.
Proof.
  induction 1 as [|v l Hv _ IH].
  - reflexivity.
  - cbn [sum_Q foldr length]. fold (sum_Q l). rewrite inject_Z_S, Hv, IH.
    reflexivity.
Qed.

Lemma inject_Z_length_pos {A} (l : list A) :
  l ≠ [] → (0 < inject_Z (Z.of_nat (length l)))%Q.
Proof.
  intros Hl. replace 0%Q with (inject_Z 0) by done. rewrite <- Zlt_Qlt.
  destruct l; [done | simpl; lia].
Qed.

Lemma print_percent_queue_run d w :
  let d' := drain d (PERCENT_QUEUE w) in
  let w0 := World (filesys w) (stdout w) [] (remote w) (api_log w) in
  print_percent_queue d w
  = (d', if 0 <? length d'
         then print (ProgressLine
                       ((render d').2 / inject_Z (Z.of_nat (length d')))%Q
                       (render d').1) w0
         else w0).
Proof.
  cbv zeta. unfold print_percent_queue.
  destruct (render (drain d (PERCENT_QUEUE w))) as [out tot].
  by destruct (0 <? _).
Qed.

(** X13. When every fraction known or queued lies between 0 and 1,
    as the samples of the workers do, the total a call of
    [print_percent_queue] prints lies between 0 and 100, and it is 100
    when every worker's latest fraction is 1.  Whatever the fractions,
    a second call with nothing new queued leaves the dictionary as it
    is and prints the same line once more. *)
Theorem print_percent_queue_bounded d w :
  let d' := (print_percent_queue d w).1 in
  let w' := (print_percent_queue d w).2 in
  (Forall (λ v, (0 <= v <= 1)%Q) (d ++ PERCENT_QUEUE w).*2 →
     ∀ total out, ProgressLine total out ∈ drop (length (stdout w)) (stdout w') →
       (0 <= total <= 100)%Q
       ∧ (Forall (λ v, (v == 1)%Q) d'.*2 → (total == 100)%Q))
  ∧ (print_percent_queue d' w').1 = d'
  ∧ stdout (print_percent_queue d' w').2
    = stdout w' ++ drop (length (stdout w)) (stdout w').
Proof.
  cbv zeta. rewrite (print_percent_queue_run d w). cbv zeta.
  set (d' := drain d (PERCENT_QUEUE w)).
  set (w0 := World (filesys w) (stdout w) [] (remote w) (api_log w)).
  cbn [fst snd].
  set (w' := if 0 <? length d' then _ else w0).
  assert (Hq : PERCENT_QUEUE w' = []).
  { unfold w'. by destruct (0 <? length d'). }
  rewrite (print_percent_queue_run d' w'). cbv zeta. rewrite Hq.
  change (drain d' []) with d'. cbn [fst snd].
  destruct (render_spec d') as [Hout Htot].
  assert (Hcase : (0 <? length d') = false ∧ d' = []
                  ∨ (0 <? length d') = true ∧ d' ≠ []).
  { destruct d'; [by left | by right]. }
  destruct Hcase as [[Hlen Hd]|[Hlen Hd]]; unfold w'; rewrite Hlen;
    cbn [stdout print w0].
  - rewrite drop_all, app_nil_r. split; [|done].
    intros _ total o. by intros ?%elem_of_nil.
  - rewrite drop_app_length. split; [|done].
    intros Hrange total o [= -> ->]%list_elem_of_singleton.
    pose proof (inject_Z_length_pos d' Hd) as Hn.
    assert (Hvals : Forall (λ v, (0 <= v <= 1)%Q) d'.*2).
    { apply Forall_forall. intros v [[k v'] [-> Hx]]%list_elem_of_fmap.
      rewrite Forall_forall in Hrange. apply Hrange.
      apply list_elem_of_fmap. exists (k, v'). split; [done|].
      apply elem_of_app. by apply drain_elem. }
    destruct (sum_Q_bounds _ Hvals) as [Hs0 Hs1].
    rewrite length_fmap in Hs1.
    split; [split|].
    + apply Qle_shift_div_l; [done|]. rewrite Htot. lra.
    + apply Qle_shift_div_r; [done|]. rewrite Htot. lra.
    + intros Hones. apply sum_Q_ones in Hones. rewrite length_fmap in Hones.
      rewrite Htot, Hones. field. lra.
Qed.
End progress_bounds.

Section listing.
Implicit Types (objs : list s3_object) (acc : list string).

Lemma thousands_step n :
  (1000 * (n / 1000) + 1000 ≤ S n →
     S n / 1000 = S (n / 1000) ∧ S n = 1000 * S (n / 1000))
  ∧ (¬ (1000 * (n / 1000) + 1000 ≤ S n) → S n / 1000 = n / 1000).
Proof.
  pose proof (Nat.div_mod_eq n 1000) as Hdm.
  pose proof (Nat.mod_upper_bound n 1000 ltac:(lia)) as Hr.
  set (q := n / 1000) in *. set (r := n mod 1000) in *.
  split.
  - intros Hle. assert (Hn : S n = S q * 1000) by lia.
    rewrite Hn at 1. rewrite Nat.div_mul by lia. split; lia.
  - intros Hlt. symmetry. apply (Nat.div_unique (S n) 1000 q (S r)); lia.
Qed.

Lemma found_lines_S n :
  S n / 1000 = S (n / 1000) →
  found_lines (S n) = found_lines n ++ [Found (1000 * S (n / 1000))].
Proof.
  intros Hq. unfold found_lines. rewrite Hq, seq_S, map_app. done.
Qed.

Lemma collect_found objs acc last_count out :
  last_count = 1000 * (length acc / 1000) →
  out = found_lines (length acc) →
  ∃ keys last_count' out',
    foldl collect (acc, last_count, out) objs = (keys, last_count', out')
    ∧ keys = acc ++ glacier_keys objs
    ∧ last_count' = 1000 * (length keys / 1000)
    ∧ out' = found_lines (length keys).
Proof.
  revert acc last_count out.
  induction objs as [|obj objs IH]; intros acc last_count out Hlc Hout.
  - exists acc, last_count, out. by rewrite app_nil_r.
  - cbn [foldl]. unfold glacier_keys. rewrite filter_cons. unfold collect at 2.
    destruct (decide (StorageClass obj = "GLACIER"
                      ∨ StorageClass obj = "DEEP_ARCHIVE")) as [Hc|Hc].
    + assert (bool_decide (StorageClass obj = "GLACIER")
              || bool_decide (StorageClass obj = "DEEP_ARCHIVE") = true) as ->.
      { destruct Hc as [Hc|Hc]; rewrite Hc; [done|]. by rewrite orb_true_r. }
      rewrite length_app. cbn [length]. rewrite Nat.add_1_r.
      destruct (thousands_step (length acc)) as [Hfull Hnot].
      rewrite <- Hlc in Hfull, Hnot.
      destruct (Nat.leb_spec (last_count + 1000) (S (length acc))) as [Hle|Hlt].
      * destruct (Hfull Hle) as [Hq Hn].
        destruct (IH (acc ++ [Key obj]) (S (length acc))
                    (out ++ [Found (S (length acc))]))
          as (keys & lc' & out' & -> & -> & Hlc' & Hout').
        { rewrite length_app. cbn [length]. rewrite Nat.add_1_r. lia. }
        { rewrite length_app. cbn [length]. rewrite Nat.add_1_r.
          rewrite (found_lines_S _ Hq), Hout. by rewrite <- Hn. }
        eexists _, _, _. split; [done|]. split; [|done].
        cbn [map]. by rewrite <- app_assoc.
      * destruct (IH (acc ++ [Key obj]) last_count out)
          as (keys & lc' & out' & -> & -> & Hlc' & Hout').
        { rewrite length_app. cbn [length]. rewrite Nat.add_1_r.
          rewrite Hnot by lia. done. }
        { rewrite length_app. cbn [length]. rewrite Nat.add_1_r.
          unfold found_lines. rewrite Hnot by lia. done. }
        eexists _, _, _. split; [done|]. split; [|done].
        cbn [map]. by rewrite <- app_assoc.
    + assert (bool_decide (StorageClass obj = "GLACIER")
              || bool_decide (StorageClass obj = "DEEP_ARCHIVE") = false) as ->.
      { apply orb_false_intro; apply bool_decide_eq_false_2; tauto. }
      by apply IH.
Qed.

(** X14. The loop of [main_generate_list] over the listed objects
    keeps the keys of the objects of class GLACIER or DEEP_ARCHIVE, in
    listing order, and prints one [Found] line for each full thousand
    of kept keys, [Found: 1000], [Found: 2000] and so on, and no
    other; [last_count] ends as the last thousand reported. *)
Theorem found_every_thousand objs :
  ∃ glacier_objects,
    foldl collect ([], 0, []) objs
    = (glacier_objects, 1000 * (length glacier_objects / 1000),
       found_lines (length glacier_objects))
    ∧ glacier_objects = glacier_keys objs
    ∧ (length glacier_objects < 1000 → found_lines (length glacier_objects) = [])
    ∧ ∀ i, i < length glacier_objects / 1000 →
        found_lines (length glacier_objects) !! i = Some (Found (1000 * S i)).
Proof.
  destruct (collect_found objs [] 0 []) as (keys & lc & out & Hrun & -> & -> & ->);
    [done|done|].
  rewrite app_nil_l in *. exists (glacier_keys objs).
  split; [done|]. split; [done|]. split.
  - intros Hlt. unfold found_lines. by rewrite Nat.div_small.
  - intros i Hi. unfold found_lines. rewrite list_lookup_fmap.
    rewrite lookup_seq_lt by done. done.
Qed.



End listing.

Section loggers.
Implicit Types (fs : filesystem) (logfile name : string).

Lemma setup_logger_lookup logfile fs name :
  default "" (setup_logger logfile fs !! name) = default "" (fs !! name)
  ∧ (is_Some (fs !! name) → setup_logger logfile fs !! name = fs !! name).
Proof.
  unfold setup_logger. destruct (fs !! logfile) as [content|] eqn:E; [done|].
  destruct (decide (name = logfile)) as [->|Hne].
  - rewrite lookup_insert_eq, E. split; [done|]. by intros [? ?].
  - by rewrite lookup_insert_ne.
Qed.


End loggers.

Section generate_then_use.
Variables (B profile : string) (pages : list (list s3_object)).
Variable failure : option ClientError.




End generate_then_use.


(** ** The availability logs of the two modes *)

Section log_names.
Variable B : string.


Lemma setup_logger_keeps logfile (fs : filesystem) name :
  path_exists fs name = true → path_exists (setup_logger logfile fs) name = true.
Proof.
  intros H%bool_decide_eq_true. apply bool_decide_eq_true_2.
  destruct (setup_logger_lookup logfile fs name) as [_ ->]; done.
Qed.









End log_names.


